(** * useEffectEvent demo: the stable-callback hook, the log sink and the quiz

    A shallow embedding of four pieces of the repository:

    - [useEffectEvent] (the polyfill hook): a ref cell that is overwritten
      on every render and a memoised arrow function that reads the cell
      when it is called;
    - [handleLog] and [uniqueLogs] (DemoApp and PerformanceMonitor): the
      retained log buffer and the list that is displayed;
    - the handlers of the [ThinkTank] quiz component: answers, awarding a
      point, resetting, the score, and what is written to localStorage;
    - the two demo components [WithoutUseEffectEvent] and
      [WithUseEffectEvent]: their effects, timers and log messages.  The
      second takes [useEffectEvent] from React, not from the repository, so
      the hook is a parameter there.

    JavaScript objects live in an explicit store and are named by their
    address, so that reference identity ([===]) is equality of addresses. *)

From Stdlib Require Import ZArith Lia Ascii.
From stdpp Require Import gmap strings pretty list fin_maps.

Local Open Scope string_scope.

(** ** Part I. The hook: [useEffectEvent] *)

(** JavaScript values that cross the handle: arguments, results, thrown
    errors. *)
Inductive Val :=
| VUndefined
| VNum (n : Z)
| VStr (s : string).

#[global] Instance Val_eq_dec : EqDecision Val.
Proof. solve_decision. Defined.

(** How a call ends: [return v] or [throw e]. *)
Inductive Outcome :=
| Return (v : Val)
| Throw (e : Val).

(** Addresses of heap objects (ref objects and closures). *)
Abbreviation loc := nat (only parsing).

(** A logical instance: one call site of the hook in one mounted component. *)
Abbreviation inst := nat (only parsing).

Section HookModel.

(** Everything outside the hook that a callback may read or change (state of
    the enclosing component, the log, timers). *)
Variable World : Type.

(** [T extends (...args: any[]) => any]: a callback takes its argument list
    and runs in the world; it returns or throws.  Callbacks are taken as
    functions of their arguments and the world only: they do not observe the
    receiver of the call (all callbacks of the repository are arrow
    functions) and they cannot call hooks. *)
Definition Fn : Type := list Val → World → Outcome * World.

(** The heap and React's per-instance hook state.

    - [refs]: the ref objects made by [useRef]; [refs !! r] is [r.current];
    - [closures]: the arrow functions [(...args) => ref.current(...args)];
      such a closure is determined by the ref object it captured;
    - [ref_slot], [cb_slot]: the memoised state of the instance's [useRef]
      and [useCallback] hooks (for [useCallback], the function and its
      dependency list);
    - [next]: the next free address;
    - [wlog]: every assignment [ref.current = fn] that was executed, oldest
      first. *)
Record Store := mkStore {
  refs : gmap loc Fn;
  closures : gmap loc loc;
  ref_slot : gmap inst loc;
  cb_slot : gmap inst (loc * list Val);
  next : loc;
  wlog : list (loc * Fn)
}.

Definition init : Store :=
  {| refs := ∅; closures := ∅; ref_slot := ∅; cb_slot := ∅; next := 0; wlog := [] |}.

(** State passing for the body of a render. *)
Definition M (A : Type) : Type := Store → A * Store.

Definition bind {A B} (m : M A) (k : A → M B) : M B :=
  λ s, let '(a, s') := m s in k a s'.

Notation "'let*' x := m 'in' k" := (bind m (λ x, k))
  (at level 10, x binder, m at level 100, k at level 200).

(** React's [useRef(initial)]: on the first render of the instance a new ref
    object is allocated with [current = initial]; on later renders the same
    object is returned and [initial] is ignored. *)
Definition useRef (i : inst) (initial : Fn) : M loc := λ s,
  match ref_slot s !! i with
  | Some r => (r, s)
  | None =>
      let r := next s in
      (r, {| refs := <[r := initial]> (refs s);
             closures := closures s;
             ref_slot := <[i := r]> (ref_slot s);
             cb_slot := cb_slot s;
             next := S r;
             wlog := wlog s |})
  end.

(** [ref.current = fn]. *)
Definition set_current (r : loc) (fn : Fn) : M unit := λ s,
  (tt, {| refs := <[r := fn]> (refs s);
          closures := closures s;
          ref_slot := ref_slot s;
          cb_slot := cb_slot s;
          next := next s;
          wlog := wlog s ++ [(r, fn)] |}).

(** Evaluating the arrow function expression
    [(...args) => { return ref.current(...args); }]: a new closure object
    that captured [ref]. *)
Definition new_closure (r : loc) : M loc := λ s,
  let c := next s in
  (c, {| refs := refs s;
         closures := <[c := r]> (closures s);
         ref_slot := ref_slot s;
         cb_slot := cb_slot s;
         next := S c;
         wlog := wlog s |}).

(** React's [useCallback(cb, deps)]: the memoised function is returned when
    the instance has one and the dependencies are the same; otherwise [cb]
    is memoised and returned. *)
Definition useCallback (i : inst) (cb : loc) (deps : list Val) : M loc := λ s,
  match cb_slot s !! i with
  | Some (memo, prev_deps) =>
      if decide (prev_deps = deps) then (memo, s)
      else (cb, {| refs := refs s; closures := closures s; ref_slot := ref_slot s;
                   cb_slot := <[i := (cb, deps)]> (cb_slot s);
                   next := next s; wlog := wlog s |})
  | None =>
      (cb, {| refs := refs s; closures := closures s; ref_slot := ref_slot s;
              cb_slot := <[i := (cb, deps)]> (cb_slot s);
              next := next s; wlog := wlog s |})
  end.

(** The hook itself, run by instance [i] with the callback of this render. *)
Definition useEffectEvent (i : inst) (fn : Fn) : M loc :=
  let* ref := useRef i fn in
  let* _ := set_current ref fn in
  let* cb := new_closure ref in
  useCallback i cb [].

(** React discards the hook state of an instance when its component
    unmounts; the objects stay on the heap for whoever still holds them (a
    timer that has not been cleared yet). *)
Definition unmount (i : inst) (s : Store) : Store :=
  {| refs := refs s; closures := closures s;
     ref_slot := delete i (ref_slot s);
     cb_slot := delete i (cb_slot s);
     next := next s; wlog := wlog s |}.

(** What a call ends with: the stored callback ran to an outcome, or there
    was nothing callable behind the handle (JavaScript's
    [TypeError: ref.current is not a function]). *)
Inductive CallResult :=
| Ran (o : Outcome) (w : World)
| NotCallable.

(** Calling a callback directly: [fn(...args)]. *)
Definition direct (fn : Fn) (args : list Val) (w : World) : CallResult :=
  let '(o, w') := fn args w in Ran o w'.

(** The function a handle resolves to when it is called: [ref.current] of the
    ref object its closure captured. *)
Definition resolve (s : Store) (h : loc) : option Fn :=
  r ← closures s !! h; refs s !! r.

(** Calling the handle: [h(...args)]. *)
Definition call (s : Store) (h : loc) (args : list Val) (w : World) : CallResult :=
  match resolve s h with
  | Some fn => direct fn args w
  | None => NotCallable
  end.

(** The handle an instance currently has memoised, and its cell. *)
Definition handle_of (s : Store) (i : inst) : option loc :=
  fst <$> cb_slot s !! i.

Definition cell_of (s : Store) (i : inst) : option loc := ref_slot s !! i.

(** Events of a history: instance [i] rendered with [fn] and got handle [h]
    back, or instance [i] was unmounted. *)
Inductive Event :=
| Rendered (i : inst) (fn : Fn) (h : loc)
| Unmounted (i : inst).

(** [steps s hist s']: from [s], the events of [hist] (newest first) lead
    to [s']. *)
Inductive steps (s : Store) : list Event → Store → Prop :=
| steps_nil : steps s [] s
| steps_render hist s' i fn :
    steps s hist s' →
    steps s (Rendered i fn (useEffectEvent i fn s').1 :: hist) (useEffectEvent i fn s').2
| steps_unmount hist s' i :
    steps s hist s' →
    steps s (Unmounted i :: hist) (unmount i s').

Definition reachable (s : Store) : Prop := ∃ hist, steps init hist s.

(** The callback most recently supplied by a render that returned handle [h]
    (histories are newest first). *)
Fixpoint last_supplied (h : loc) (hist : list Event) : option Fn :=
  match hist with
  | [] => None
  | Rendered _ fn h' :: hist' =>
      if decide (h' = h) then Some fn else last_supplied h hist'
  | Unmounted _ :: hist' => last_supplied h hist'
  end.

(** Successive renders of one instance, one per callback of [fns]; the
    handles they returned, in order. *)
Fixpoint renders (i : inst) (fns : list Fn) (s : Store) : list loc * Store :=
  match fns with
  | [] => ([], s)
  | fn :: fns' =>
      let '(h, s1) := useEffectEvent i fn s in
      let '(hs, s2) := renders i fns' s1 in
      (h :: hs, s2)
  end.

(** Well-formedness of a store: addresses in use are below [next]; a closure
    captured an existing ref object; an instance has both of its hooks or
    neither, its memoised function has the empty dependency list and
    captured the instance's own ref object; two instances never share a ref
    object. *)
Record Inv (s : Store) : Prop := mkInv {
  inv_refs_lt : ∀ r fn, refs s !! r = Some fn → r < next s;
  inv_clos : ∀ h r, closures s !! h = Some r → h < next s ∧ is_Some (refs s !! r);
  inv_ref_slot : ∀ i r, ref_slot s !! i = Some r →
                 is_Some (refs s !! r) ∧ ∃ h, cb_slot s !! i = Some (h, []);
  inv_cb_slot : ∀ i h d, cb_slot s !! i = Some (h, d) →
                d = [] ∧ ∃ r, ref_slot s !! i = Some r ∧ closures s !! h = Some r;
  inv_inj : ∀ i j r, ref_slot s !! i = Some r → ref_slot s !! j = Some r → i = j
}.

(** Handle [h] is the closure over cell [r], and an instance that has [r] as
    its cell has [h] as its handle. *)
Definition owns (s : Store) (h r : loc) : Prop :=
  closures s !! h = Some r
  ∧ ∀ i, ref_slot s !! i = Some r → ∃ d, cb_slot s !! i = Some (h, d).

End HookModel.

Arguments Fn World : clear implicits.
Arguments Store World : clear implicits.
Arguments init {World}.
Arguments refs {World} _.
Arguments closures {World} _.
Arguments ref_slot {World} _.
Arguments cb_slot {World} _.
Arguments next {World} _.
Arguments wlog {World} _.
Arguments useRef {World} i initial _.
Arguments set_current {World} r fn _.
Arguments new_closure {World} r _.
Arguments useCallback {World} i cb deps _.
Arguments useEffectEvent {World} i fn _.
Arguments unmount {World} i s.
Arguments Ran {World} o w.
Arguments NotCallable {World}.
Arguments direct {World} fn args w.
Arguments resolve {World} s h.
Arguments call {World} s h args w.
Arguments handle_of {World} s i.
Arguments cell_of {World} s i.
Arguments Rendered {World} i fn h.
Arguments Unmounted {World} i.
Arguments steps {World} s _ _.
Arguments steps_nil {World} s.
Arguments steps_render {World} s hist s' i fn _.
Arguments steps_unmount {World} s hist s' i _.
Arguments reachable {World} s.
Arguments last_supplied {World} h hist.
Arguments renders {World} i fns s.
Arguments Inv {World} s.
Arguments inv_refs_lt {World} s _ r fn _.
Arguments inv_clos {World} s _ h r _.
Arguments inv_ref_slot {World} s _ i r _.
Arguments inv_cb_slot {World} s _ i h d _.
Arguments inv_inj {World} s _ i j r _ _.
Arguments owns {World} s h r.

(** ** Part II. The log sink: [handleLog] (DemoApp) and [uniqueLogs]
       (PerformanceMonitor) *)

(** [arr.slice(-n)]: the last [n] elements, all of them when there are fewer. *)
Definition slice_last {A} (n : nat) (arr : list A) : list A :=
  drop (length arr - n) arr.

(** The template literal [`[${timestamp}] ${message}`]. *)
Definition logWithTime (timestamp message : string) : string :=
  "[" +:+ timestamp +:+ "] " +:+ message.

(** The updater that [handleLog] passes to [setLogs]; [timestamp] is what
    [new Date().toLocaleTimeString()] gave. *)
Definition handleLog (timestamp message : string) (prev : list string) : list string :=
  if bool_decide (0 < length prev)
     && bool_decide (prev !! (length prev - 1) = Some (logWithTime timestamp message))
  then prev
  else slice_last 20 prev ++ [logWithTime timestamp message].

(** The buffer after a sequence of [handleLog] calls, oldest first; each entry
    is a timestamp and a message. *)
Definition appendAll (entries : list (string * string)) (logs : list string) : list string :=
  foldl (λ prev e, handleLog e.1 e.2 prev) logs entries.

(** [arr.findIndex(p)]: the index of the first element that satisfies [p],
    [-1] when there is none. *)
Fixpoint findIndex_from {A} (p : A → bool) (arr : list A) (k : nat) : Z :=
  match arr with
  | [] => (-1)%Z
  | x :: arr' => if p x then Z.of_nat k else findIndex_from p arr' (S k)
  end.

Definition findIndex {A} (p : A → bool) (arr : list A) : Z := findIndex_from p arr 0.

(** [arr.filter((x, index) => keep(x, index))], for the elements from index
    [k] on. *)
Fixpoint filter_from {A} (keep : A → nat → bool) (arr : list A) (k : nat) : list A :=
  match arr with
  | [] => []
  | x :: arr' =>
      if keep x k then x :: filter_from keep arr' (S k) else filter_from keep arr' (S k)
  end.

(** [logs.filter((log, index, arr) => arr.findIndex(l => l === log) === index)
         .slice(-15)] *)
Definition uniqueLogs (logs : list string) : list string :=
  slice_last 15
    (filter_from
       (λ log index, (findIndex (λ l, bool_decide (l = log)) logs =? Z.of_nat index)%Z)
       logs 0).

(** In words: a sequence without the entries that repeat the entry just
    before them. *)
Fixpoint drop_repeats (l : list string) : list string :=
  match l with
  | [] => []
  | x :: l' =>
      match l' with
      | [] => [x]
      | y :: _ => if bool_decide (x = y) then drop_repeats l' else x :: drop_repeats l'
      end
  end.

(** In words: the first occurrence of every entry, in order; [seen] are the
    entries that came before. *)
Fixpoint first_occurrences (seen l : list string) : list string :=
  match l with
  | [] => []
  | x :: l' =>
      if bool_decide (x ∈ seen) then first_occurrences (seen ++ [x]) l'
      else x :: first_occurrences (seen ++ [x]) l'
  end.

(** *** Reading a log line back: the log entries of PerformanceMonitor

    Strings are the UTF-8 bytes of the JavaScript string.  Both regular
    expressions only distinguish the ASCII characters [[] and []] and white
    space, so matching bytes is matching UTF-16 code units. *)

(** The longest prefix without []], and the rest: what [[^\]]+] takes, being
    greedy; giving characters back never helps, since [\]] must follow. *)
Fixpoint span_no_close (s : string) : string * string :=
  match s with
  | "" => ("", "")
  | String c s' =>
      if bool_decide (c = "]"%char) then ("", s)
      else let '(run, rest) := span_no_close s' in (String c run, rest)
  end.

(** [/\[([^\]]+)\]/] at the start of [s]: the group and what follows the
    match. *)
Definition bracket_here (s : string) : option (string * string) :=
  match s with
  | String c s' =>
      if bool_decide (c = "["%char) then
        match span_no_close s' with
        | (String g run, String close rest) =>
            if bool_decide (close = "]"%char) then Some (String g run, rest) else None
        | _ => None
        end
      else None
  | "" => None
  end.

(** The leftmost match of [/\[([^\]]+)\]/] in [s]: what precedes it, the
    group, what follows. *)
Fixpoint bracket_first (s : string) : option (string * string * string) :=
  match bracket_here s with
  | Some (group, rest) => Some ("", group, rest)
  | None =>
      match s with
      | "" => None
      | String c s' =>
          match bracket_first s' with
          | Some (before, group, rest) => Some (String c before, group, rest)
          | None => None
          end
      end
  end.

(** One white space character of [\s] at the start of [s] removed, if there
    is one: tab, line feed, vertical tab, form feed, carriage return, space,
    and U+00A0, U+1680, U+2000 to U+200A, U+2028, U+2029, U+202F, U+205F,
    U+3000, U+FEFF in UTF-8. *)
Definition drop_space (s : string) : option string :=
  match s with
  | String c s1 =>
      let n := nat_of_ascii c in
      if bool_decide (n = 9 ∨ n = 10 ∨ n = 11 ∨ n = 12 ∨ n = 13 ∨ n = 32)%nat then Some s1
      else
        match s1 with
        | String c2 s2 =>
            let n2 := nat_of_ascii c2 in
            if bool_decide (n = 194 ∧ n2 = 160)%nat then Some s2
            else
              match s2 with
              | String c3 s3 =>
                  let n3 := nat_of_ascii c3 in
                  if bool_decide
                       ((n = 225 ∧ n2 = 154 ∧ n3 = 128)
                        ∨ (n = 226 ∧ n2 = 128 ∧ (128 ≤ n3 ≤ 138 ∨ n3 = 168 ∨ n3 = 169 ∨ n3 = 175))
                        ∨ (n = 226 ∧ n2 = 129 ∧ n3 = 159)
                        ∨ (n = 227 ∧ n2 = 128 ∧ n3 = 128)
                        ∨ (n = 239 ∧ n2 = 187 ∧ n3 = 191))%nat
                  then Some s3 else None
              | "" => None
              end
        | "" => None
        end
  | "" => None
  end.

(** [\s*]: white space removed from the start for as long as there is some;
    [fuel] bounds the number of characters. *)
Fixpoint skip_space_fuel (fuel : nat) (s : string) : string :=
  match fuel with
  | O => s
  | S fuel' =>
      match drop_space s with
      | Some s' => skip_space_fuel fuel' s'
      | None => s
      end
  end.

Definition skip_space (s : string) : string := skip_space_fuel (String.length s) s.

(** [log.match(/\[([^\]]+)\]/)] and then [logMatch[1]]: [None] stands for the
    fallback to the current time. *)
Definition logTime (log : string) : option string :=
  match bracket_first log with
  | Some (_, group, _) => Some group
  | None => None
  end.

(** [log.replace(/\[[^\]]+\]\s*/, '')] *)
Definition logMessage (log : string) : string :=
  match bracket_first log with
  | Some (before, _, rest) => before +:+ skip_space rest
  | None => log
  end.

(** ** Part III. The quiz: [ThinkTank] *)

(** [interface TeamMember]; the counters are JavaScript numbers that only
    ever hold small integers. *)
Record TeamMember := mkTeamMember {
  name : string;
  totalBonus : Z;
  questionsAnswered : Z;
  correctAnswers : Z;
  lastActivity : string
}.

(** [interface QuizQuestion], without the texts that are only displayed
    (question, code, options, explanation); [qid] is the field [id]. *)
Record QuizQuestion := mkQuizQuestion {
  qid : Z;
  qtype : string;
  difficulty : string;
  correctAnswer : Z
}.

(** src/data/quizQuestions.ts *)
Definition quizQuestions : list QuizQuestion :=
  [ mkQuizQuestion 1 "multiple-choice" "beginner" 1;
    mkQuizQuestion 2 "code-analysis" "intermediate" 1;
    mkQuizQuestion 3 "code-analysis" "advanced" 1;
    mkQuizQuestion 4 "multiple-choice" "intermediate" 3;
    mkQuizQuestion 5 "true-false" "beginner" 1;
    mkQuizQuestion 6 "code-analysis" "advanced" 2;
    mkQuizQuestion 7 "multiple-choice" "intermediate" 1;
    mkQuizQuestion 8 "code-analysis" "advanced" 2 ].

(** What the component does to the browser: reads and writes of
    localStorage, in order, and alerts. *)
Inductive StorageOp :=
| GetItem (key : string)
| SetItem (key value : string).

Record Browser := mkBrowser {
  localStorage : gmap string string;
  storage_ops : list StorageOp;
  alerts : list string
}.

Definition getItem (key : string) (b : Browser) : option string * Browser :=
  (localStorage b !! key,
   {| localStorage := localStorage b;
      storage_ops := storage_ops b ++ [GetItem key];
      alerts := alerts b |}).

Definition setItem (key value : string) (b : Browser) : Browser :=
  {| localStorage := <[key := value]> (localStorage b);
     storage_ops := storage_ops b ++ [SetItem key value];
     alerts := alerts b |}.

Definition alert (message : string) (b : Browser) : Browser :=
  {| localStorage := localStorage b;
     storage_ops := storage_ops b;
     alerts := alerts b ++ [message] |}.

(** The state of the component, one field per [useState].  An array of
    answers may have empty slots ([None]): JavaScript makes them when an
    index past the end is assigned.  A slot that is not empty holds a number
    or, once an array with empty slots was copied, [undefined]. *)
Record ThinkTank := mkThinkTank {
  currentQuestion : nat;
  selectedAnswers : list (option Val);
  showResults : bool;
  showExplanation : bool;
  showLeaderboard : bool;
  awardMember : string;
  awardedForQuestion : gmap nat string;
  teamData : gmap string TeamMember
}.

(** [[...arr]]: the copy that iterating the array makes; an empty slot is
    read as [undefined], so the copy has none. *)
Definition spread (arr : list (option Val)) : list (option Val) :=
  (λ slot, Some (default VUndefined slot)) <$> arr.

(** [arr[index] = v] on a JavaScript array. *)
Definition array_set {A} (arr : list (option A)) (index : nat) (v : A) : list (option A) :=
  if decide (index < length arr) then <[index := Some v]> arr
  else arr ++ replicate (index - length arr) None ++ [Some v].

(** [arr.reduce((acc, x, index) => f(acc, x, index), acc)] from index [k] on:
    empty slots are skipped, and an exception in [f] ([None]) ends the
    reduction. *)
Fixpoint reduce_from {A B} (f : B → A → nat → option B)
    (arr : list (option A)) (k : nat) (acc : B) : option B :=
  match arr with
  | [] => Some acc
  | None :: arr' => reduce_from f arr' (S k) acc
  | Some x :: arr' =>
      match f acc x k with
      | Some acc' => reduce_from f arr' (S k) acc'
      | None => None
      end
  end.

(** [calculateScore]; [None] is the TypeError of reading [.correctAnswer]
    of [undefined], when [quizQuestions[index]] does not exist. *)
Definition calculateScore (selectedAnswers : list (option Val)) : option Z :=
  reduce_from
    (λ score answer index,
       question ← quizQuestions !! index;
       Some (score + (if bool_decide (answer = VNum (correctAnswer question)) then 1 else 0))%Z)
    selectedAnswers 0 0%Z.

(** In words: the indices at which the selected answer is the correct answer
    of the question, and how many there are. *)
Definition correct_at (selectedAnswers : list (option Val)) (i : nat) : bool :=
  match selectedAnswers !! i, quizQuestions !! i with
  | Some (Some answer), Some question => bool_decide (answer = VNum (correctAnswer question))
  | _, _ => false
  end.

Definition count_correct (selectedAnswers : list (option Val)) : nat :=
  length (filter (λ i, correct_at selectedAnswers i = true) (seq 0 (length selectedAnswers))).

Section QuizModel.

(** src/data/teamMembers.ts is not part of the sources: the list of names is
    a parameter. *)
Variable TEAM_MEMBERS : list string.

(** [JSON.stringify] and [JSON.parse] on team data; parsing may throw. *)
Variable stringify : gmap string TeamMember → string.
Variable parse : string → option (gmap string TeamMember).

(** The key of the saved scores. *)
Definition storageKey : string := "thinkTankTeamData".

(** The loop [TEAM_MEMBERS.forEach(name => { data[name] = {...} })]. *)
Definition blankTeam : gmap string TeamMember :=
  foldl (λ data name, <[name := mkTeamMember name 0 0 0 "Never"]> data) ∅ TEAM_MEMBERS.

(** Mounting the component: the initial values of the [useState] calls; the
    initialiser of [teamData] reads localStorage.  [None] when [JSON.parse]
    throws. *)
Definition mount (b : Browser) : option (ThinkTank * Browser) :=
  let '(saved, b') := getItem storageKey b in
  team ← (match saved with
          | Some text => if bool_decide (text = "") then Some blankTeam else parse text
          | None => Some blankTeam
          end);
  Some ({| currentQuestion := 0; selectedAnswers := [];
           showResults := false; showExplanation := false; showLeaderboard := false;
           awardMember := ""; awardedForQuestion := ∅; teamData := team |}, b').

Definition handleAnswer (answerIndex : Z) (q : ThinkTank) : ThinkTank :=
  let newAnswers :=
    array_set (spread (selectedAnswers q)) (currentQuestion q) (VNum answerIndex) in
  {| currentQuestion := currentQuestion q; selectedAnswers := newAnswers;
     showResults := showResults q; showExplanation := true;
     showLeaderboard := showLeaderboard q; awardMember := awardMember q;
     awardedForQuestion := awardedForQuestion q; teamData := teamData q |}.

(** A string is truthy when it is not empty; [undefined] is falsy. *)
Definition truthy (v : option string) : bool :=
  match v with
  | Some text => negb (bool_decide (text = ""))
  | None => false
  end.

(** [handleAwardPoint]; [now] is what [new Date().toLocaleString()] gave.
    The member object is updated in place and is shared by the old and the
    new map; only the new map is the state afterwards. *)
Definition handleAwardPoint (now : string) (q : ThinkTank) (b : Browser) : ThinkTank * Browser :=
  let questionIndex := currentQuestion q in
  if truthy (awardedForQuestion q !! questionIndex) then (q, b)
  else if negb (truthy (Some (awardMember q))) then
    (q, alert "Please choose who gave the correct answer." b)
  else
    match teamData q !! awardMember q with
    | None => (q, b)
    | Some member =>
        let member' :=
          {| name := name member;
             totalBonus := totalBonus member + 1;
             questionsAnswered := questionsAnswered member + 1;
             correctAnswers := correctAnswers member + 1;
             lastActivity := now |} in
        let newTeamData := <[awardMember q := member']> (teamData q) in
        let newAwarded := <[questionIndex := awardMember q]> (awardedForQuestion q) in
        ({| currentQuestion := currentQuestion q; selectedAnswers := selectedAnswers q;
            showResults := showResults q; showExplanation := showExplanation q;
            showLeaderboard := showLeaderboard q; awardMember := awardMember q;
            awardedForQuestion := newAwarded; teamData := newTeamData |},
         setItem storageKey (stringify newTeamData) b)
    end.

Definition nextQuestion (q : ThinkTank) : ThinkTank :=
  if decide (currentQuestion q < length quizQuestions - 1) then
    {| currentQuestion := currentQuestion q + 1; selectedAnswers := selectedAnswers q;
       showResults := showResults q; showExplanation := false;
       showLeaderboard := showLeaderboard q; awardMember := awardMember q;
       awardedForQuestion := awardedForQuestion q; teamData := teamData q |}
  else
    {| currentQuestion := currentQuestion q; selectedAnswers := selectedAnswers q;
       showResults := true; showExplanation := false;
       showLeaderboard := showLeaderboard q; awardMember := awardMember q;
       awardedForQuestion := awardedForQuestion q; teamData := teamData q |}.

Definition resetQuiz (q : ThinkTank) : ThinkTank :=
  {| currentQuestion := 0; selectedAnswers := [];
     showResults := false; showExplanation := false;
     showLeaderboard := showLeaderboard q; awardMember := "";
     awardedForQuestion := ∅; teamData := teamData q |}.

(** [resetAllTeamData]; [confirmed] is the answer to [window.confirm]. *)
Definition resetAllTeamData (confirmed : bool) (q : ThinkTank) (b : Browser) : ThinkTank * Browser :=
  if confirmed then
    let resetData := blankTeam in
    ({| currentQuestion := currentQuestion q; selectedAnswers := selectedAnswers q;
        showResults := showResults q; showExplanation := showExplanation q;
        showLeaderboard := showLeaderboard q; awardMember := awardMember q;
        awardedForQuestion := awardedForQuestion q; teamData := resetData |},
     setItem storageKey (stringify resetData) b)
  else (q, b).

Definition setAwardMember (member : string) (q : ThinkTank) : ThinkTank :=
  {| currentQuestion := currentQuestion q; selectedAnswers := selectedAnswers q;
     showResults := showResults q; showExplanation := showExplanation q;
     showLeaderboard := showLeaderboard q; awardMember := member;
     awardedForQuestion := awardedForQuestion q; teamData := teamData q |}.

Definition setShowLeaderboard (show : bool) (q : ThinkTank) : ThinkTank :=
  {| currentQuestion := currentQuestion q; selectedAnswers := selectedAnswers q;
     showResults := showResults q; showExplanation := showExplanation q;
     showLeaderboard := show; awardMember := awardMember q;
     awardedForQuestion := awardedForQuestion q; teamData := teamData q |}.

(** Everything the user can make the component do after it is mounted. *)
Inductive Action :=
| HandleAnswer (answerIndex : Z)
| HandleAwardPoint (now : string)
| NextQuestion
| ResetQuiz
| ResetAllTeamData (confirmed : bool)
| SetAwardMember (member : string)
| SetShowLeaderboard (show : bool).

Definition dispatch (a : Action) (qb : ThinkTank * Browser) : ThinkTank * Browser :=
  match a with
  | HandleAnswer answerIndex => (handleAnswer answerIndex qb.1, qb.2)
  | HandleAwardPoint now => handleAwardPoint now qb.1 qb.2
  | NextQuestion => (nextQuestion qb.1, qb.2)
  | ResetQuiz => (resetQuiz qb.1, qb.2)
  | ResetAllTeamData confirmed => resetAllTeamData confirmed qb.1 qb.2
  | SetAwardMember member => (setAwardMember member qb.1, qb.2)
  | SetShowLeaderboard show => (setShowLeaderboard show qb.1, qb.2)
  end.

(** The actions of [acts], oldest first. *)
Definition session (acts : list Action) (qb : ThinkTank * Browser) : ThinkTank * Browser :=
  foldl (λ st a, dispatch a st) qb acts.

(** The team data after a point went to the selected member, whose record
    was [member]. *)
Definition awarded (now : string) (q : ThinkTank) (member : TeamMember) : gmap string TeamMember :=
  <[awardMember q :=
      {| name := name member;
         totalBonus := totalBonus member + 1;
         questionsAnswered := questionsAnswered member + 1;
         correctAnswers := correctAnswers member + 1;
         lastActivity := now |}]> (teamData q).

(** A step that left the team data and the store alone. *)
Definition untouched (st st' : ThinkTank * Browser) : Prop :=
  teamData st'.1 = teamData st.1
  ∧ localStorage st'.2 = localStorage st.2
  ∧ storage_ops st'.2 = storage_ops st.2.

(** A step that wrote the whole team data of the new state under the key. *)
Definition snapshot_written (st st' : ThinkTank * Browser) : Prop :=
  localStorage st'.2 = <[storageKey := stringify (teamData st'.1)]> (localStorage st.2)
  ∧ storage_ops st'.2
    = (storage_ops st.2 ++ [SetItem storageKey (stringify (teamData st'.1))])%list.

Definition snapshot_write (op : StorageOp) : Prop :=
  ∃ team, op = SetItem storageKey (stringify team).

End QuizModel.

(** Every recorded award names a member. *)
Definition awards_named (q : ThinkTank) : Prop :=
  ∀ k member, awardedForQuestion q !! k = Some member → member ≠ "".

(** What holds of the quiz in every state: the current question exists, there
    are no more answers than questions, and awards are named. *)
Definition quiz_inv (q : ThinkTank) : Prop :=
  (currentQuestion q < length quizQuestions)%nat
  ∧ (length (selectedAnswers q) ≤ length quizQuestions)%nat
  ∧ awards_named q.

(** *** The views of the quiz and their controls *)

(** The view that the component renders: the leaderboard, the results or the
    current question. *)
Inductive View := LeaderboardView | ResultsView | QuestionView.

Definition view (q : ThinkTank) : View :=
  if showLeaderboard q then LeaderboardView
  else if showResults q then ResultsView
  else QuestionView.

(** The controls of the three views. *)
Inductive Click :=
| ClickOption (index : nat)
| ChooseMember (value : string)
| ClickGivePoint (now : string)
| ClickNext
| ClickRetake
| ClickViewLeaderboard
| ClickBackToQuiz
| ClickResetAll (confirmed : bool).

(** Every record of team data carries its key as name and the three counters
    are equal and not negative. *)
Definition team_consistent (team : gmap string TeamMember) : Prop :=
  ∀ key member, team !! key = Some member →
    name member = key
    ∧ questionsAnswered member = totalBonus member
    ∧ correctAnswers member = totalBonus member
    ∧ (0 ≤ totalBonus member)%Z.

Section QuizUI.

Variable TEAM_MEMBERS : list string.
Variable stringify : gmap string TeamMember → string.

(** A click on a control: the handler runs when the current view renders the
    control and the control is not disabled; otherwise nothing happens.  The
    option buttons are disabled while the explanation is shown; the
    explanation panel holds the Next button and, when the selected answer is
    the correct one, the member dropdown and the Give-point button, which is
    disabled once the question has its award. *)
Definition click (c : Click) (st : ThinkTank * Browser) : ThinkTank * Browser :=
  let q := st.1 in
  match view q, c with
  | LeaderboardView, ClickBackToQuiz => (setShowLeaderboard false q, st.2)
  | LeaderboardView, ClickResetAll confirmed =>
      resetAllTeamData TEAM_MEMBERS stringify confirmed q st.2
  | ResultsView, ClickRetake => (resetQuiz q, st.2)
  | ResultsView, ClickViewLeaderboard => (setShowLeaderboard true q, st.2)
  | QuestionView, ClickViewLeaderboard => (setShowLeaderboard true q, st.2)
  | QuestionView, ClickOption index =>
      if showExplanation q then st else (handleAnswer (Z.of_nat index) q, st.2)
  | QuestionView, ClickNext =>
      if showExplanation q then (nextQuestion q, st.2) else st
  | QuestionView, ChooseMember value =>
      if showExplanation q && correct_at (selectedAnswers q) (currentQuestion q)
      then (setAwardMember value q, st.2) else st
  | QuestionView, ClickGivePoint now =>
      if showExplanation q && correct_at (selectedAnswers q) (currentQuestion q)
         && negb (truthy (awardedForQuestion q !! currentQuestion q))
      then handleAwardPoint stringify now q st.2 else st
  | _, _ => st
  end.

(** The clicks of [clicks], oldest first. *)
Definition visit (clicks : list Click) (st : ThinkTank * Browser) : ThinkTank * Browser :=
  foldl (λ st c, click c st) st clicks.

End QuizUI.

(** What the views keep true: there is one answer for each question seen so
    far, each slot holds a number (none is empty or [undefined]); results are
    shown only at the last question; a question has an award only if its
    answer is correct. *)
Definition ui_inv (q : ThinkTank) : Prop :=
  (currentQuestion q < length quizQuestions)%nat
  ∧ Forall (λ slot, ∃ n, slot = Some (VNum n)) (selectedAnswers q)
  ∧ length (selectedAnswers q)
    = (currentQuestion q + (if showExplanation q || showResults q then 1 else 0))%nat
  ∧ (showResults q = true →
       currentQuestion q = (length quizQuestions - 1)%nat ∧ showExplanation q = false)
  ∧ ∀ k, is_Some (awardedForQuestion q !! k) → correct_at (selectedAnswers q) k = true.

(** ** Part IV. The two demo components: [WithoutUseEffectEvent] and
       [WithUseEffectEvent] *)

(** The props of both components, function objects by their address;
    [onRecreationChange] is optional. *)
Record Props := mkProps {
  onLog : nat;
  onShowCode : nat;
  onRecreationChange : option nat
}.

#[global] Instance Props_eq_dec : EqDecision Props.
Proof. solve_decision. Defined.

(** What a component does to its surroundings: calls of the functions it was
    given, and timers. *)
Inductive Effect :=
| OnLog (fn : nat) (message : string)
| OnRecreationChange (fn : nat) (count : nat)
| SetInterval (timer : nat)
| ClearInterval (timer : nat).

(** The surroundings: the effects so far (oldest first), how often the clock
    was read, the next timer id and the intervals that are running. *)
Record Env := mkEnv {
  trace : list Effect;
  clock_reads : nat;
  next_timer : nat;
  timers : gset nat
}.

Definition emit (e : Effect) (env : Env) : Env :=
  {| trace := trace env ++ [e]; clock_reads := clock_reads env;
     next_timer := next_timer env; timers := timers env |}.

(** [setInterval(callback, 1500)]: a new timer id. *)
Definition setInterval (env : Env) : nat * Env :=
  (next_timer env,
   {| trace := trace env ++ [SetInterval (next_timer env)];
      clock_reads := clock_reads env;
      next_timer := S (next_timer env);
      timers := {[next_timer env]} ∪ timers env |}).

Definition clearInterval (timer : nat) (env : Env) : Env :=
  {| trace := trace env ++ [ClearInterval timer]; clock_reads := clock_reads env;
     next_timer := next_timer env; timers := timers env ∖ {[timer]} |}.

(** [onRecreationChange?.(count)] *)
Definition notify (props : Props) (count : nat) (env : Env) : Env :=
  match onRecreationChange props with
  | Some fn => emit (OnRecreationChange fn count) env
  | None => env
  end.

(** The double quote character. *)
Definition dq : string := String (ascii_of_nat 34) EmptyString.

(** The other name: [name === 'John' ? 'Jane' : 'John']. *)
Definition other_name (name : string) : string :=
  if bool_decide (name = "John") then "Jane" else "John".

(** A value in a template literal. *)
Definition template (v : Val) : string :=
  match v with
  | VUndefined => "undefined"
  | VNum n => pretty n
  | VStr s => s
  end.

(** The messages of [WithoutUseEffectEvent]. *)
Definition without_created (count : nat) (time : string) : string :=
  "🔴 WITHOUT: Timer created #" +:+ pretty count +:+ " at " +:+ time.

Definition without_ticked (count : nat) (name : string) : string :=
  "🔴 WITHOUT: Timer tick #" +:+ pretty count +:+ " - Name: " +:+ name
  +:+ " ⚠️ STALE (captured at timer creation #" +:+ pretty count +:+ ")".

Definition without_destroyed (count : nat) (time : string) : string :=
  "🔴 WITHOUT: Timer #" +:+ pretty count +:+ " destroyed at " +:+ time.

Definition without_changed (oldName newName : string) : list string :=
  [ "🔴 WITHOUT: Name changed from " +:+ dq +:+ oldName +:+ dq +:+ " to "
      +:+ dq +:+ newName +:+ dq;
    "🔴 WITHOUT: ⚠️ WAIT for next timer tick (1.5s) - it will show OLD name "
      +:+ dq +:+ oldName +:+ dq +:+ " (stale closure!)";
    "🔴 WITHOUT: To fix stale value, timer must recreate (click "
      +:+ dq +:+ "Force Parent Rerender" +:+ dq +:+ ")" ].

(** The messages of [WithUseEffectEvent]. *)
Definition with_logged (message name : string) : string :=
  "🟢 WITH: " +:+ message +:+ " - Name: " +:+ name.

Definition with_created (count : nat) (time : string) : string :=
  "Timer created #" +:+ pretty count +:+ " at " +:+ time.

Definition with_ticked (count : nat) : string :=
  "Timer tick #" +:+ pretty count +:+ " - Always gets FRESH name!".

Definition with_destroyed (count : nat) (time : string) : string :=
  "Timer #" +:+ pretty count +:+ " destroyed at " +:+ time.

Definition with_changed (newName : string) : string :=
  "🟢 WITH: Name changed to " +:+ newName
  +:+ " - Timer will show this NEW value in next tick!".

(** What the timer effect of [WithoutUseEffectEvent] set up in the render in
    which it last ran: the [onLog] and the [name] its closures captured (the
    [onLog] is also its dependency), and the interval. *)
Record TimerClosure := mkTimerClosure {
  tc_onLog : nat;
  tc_name : string;
  tc_timer : nat
}.

(** An instance of [WithoutUseEffectEvent]: the state [name], the two refs,
    the props of the last render and the timer effect. *)
Record Without := mkWithout {
  wo_name : string;
  wo_renderCount : nat;
  wo_effectRecreationCount : nat;
  wo_props : Props;
  wo_effect : TimerClosure
}.

(** [useEffectEvent] as [WithUseEffectEvent] uses it.  The component imports
    the hook from React, whose code is not in the repository, so the hook is
    a parameter of the component: [hook_render fn s] is the call
    [useEffectEvent(fn)] of a render, which gives the render a function, here
    by its address; [hook_call s h args w] is a call of such a function when
    the state of the hook is [s]. *)
Record EffectEventHook := mkEffectEventHook {
  hook_state : Type;
  hook_init : hook_state;
  hook_render : Fn Env → hook_state → nat * hook_state;
  hook_call : hook_state → nat → list Val → Env → CallResult Env
}.

(** The state of the hook after further renders that passed [fns], oldest
    first. *)
Definition hook_renders (hook : EffectEventHook) (fns : list (Fn Env))
    (s : hook_state hook) : hook_state hook :=
  foldl (λ s fn, (hook_render hook fn s).2) s fns.

(** What is taken for granted of the hook: a call of the function that the
    first render got runs a callback that a render passed to the hook, the
    first render or a later one.  Which of them is the hook's business:
    React documents the callback of the latest render. *)
Definition hook_runs_passed (hook : EffectEventHook) : Prop :=
  ∀ fn fns, ∃ fn',
    fn' ∈ fn :: fns
    ∧ ∀ args w,
        hook_call hook (hook_renders hook fns (hook_render hook fn (hook_init hook)).2)
          (hook_render hook fn (hook_init hook)).1 args w
        = direct fn' args w.

(** The hook of Part I, which the repository keeps as its own implementation
    of [useEffectEvent], in the place of the parameter. *)
Definition polyfill : EffectEventHook :=
  {| hook_state := Store Env; hook_init := init;
     hook_render := useEffectEvent 0; hook_call := call |}.

(** What happens to a mounted component: its parent renders and passes
    props, the button is clicked, or the interval fires. *)
Inductive CEvent :=
| Update (props : Props)
| ToggleName
| Tick.

(** In words: how often the [onLog] changes along the events, starting from
    [current]. *)
Fixpoint onLog_changes (current : nat) (evs : list CEvent) : nat :=
  match evs with
  | [] => 0
  | Update props :: evs' =>
      (if bool_decide (onLog props = current) then 0 else 1) + onLog_changes (onLog props) evs'
  | _ :: evs' => onLog_changes current evs'
  end.

(** In words: the number of clicks on the button. *)
Fixpoint toggles (evs : list CEvent) : nat :=
  match evs with
  | [] => 0
  | ToggleName :: evs' => S (toggles evs')
  | _ :: evs' => toggles evs'
  end.

Section Components.

(** The clock: what the n-th [new Date().toLocaleTimeString()] returns. *)
Variable clock : nat → string.

Definition read_clock (env : Env) : string * Env :=
  (clock (clock_reads env),
   {| trace := trace env; clock_reads := S (clock_reads env);
      next_timer := next_timer env; timers := timers env |}).

(** *** [WithoutUseEffectEvent] *)

(** The body of the timer effect, run in a render with [props] and [name]
    when the ref holds [count]. *)
Definition without_effect (props : Props) (name : string) (count : nat) (env : Env)
  : nat * TimerClosure * Env :=
  let count := S count in
  let env := notify props count env in
  let '(creationTime, env) := read_clock env in
  let env := emit (OnLog (onLog props) (without_created count creationTime)) env in
  let '(timer, env) := setInterval env in
  (count, {| tc_onLog := onLog props; tc_name := name; tc_timer := timer |}, env).

(** The cleanup that the effect returned. *)
Definition without_cleanup (tc : TimerClosure) (count : nat) (env : Env) : Env :=
  let env := clearInterval (tc_timer tc) env in
  let '(time, env) := read_clock env in
  emit (OnLog (tc_onLog tc) (without_destroyed count time)) env.

(** The first render and its effects: the mount effect, then the timer
    effect. *)
Definition without_mount (props : Props) (env : Env) : Without * Env :=
  let env := notify props 0 env in
  let '(count, tc, env) := without_effect props "John" 0 env in
  ({| wo_name := "John"; wo_renderCount := 1; wo_effectRecreationCount := count;
      wo_props := props; wo_effect := tc |}, env).

(** A later render with [props] and state [name]: the timer effect is cleaned
    up and run again when its dependency [onLog] is another function. *)
Definition without_render (props : Props) (name : string) (c : Without) (env : Env)
  : Without * Env :=
  if decide (onLog props = tc_onLog (wo_effect c)) then
    ({| wo_name := name; wo_renderCount := S (wo_renderCount c);
        wo_effectRecreationCount := wo_effectRecreationCount c;
        wo_props := props; wo_effect := wo_effect c |}, env)
  else
    let env := without_cleanup (wo_effect c) (wo_effectRecreationCount c) env in
    let '(count, tc, env) := without_effect props name (wo_effectRecreationCount c) env in
    ({| wo_name := name; wo_renderCount := S (wo_renderCount c);
        wo_effectRecreationCount := count;
        wo_props := props; wo_effect := tc |}, env).

(** The parent rendered: [React.memo] skips the render when the props are
    the same. *)
Definition without_update (props : Props) (c : Without) (env : Env) : Without * Env :=
  if decide (props = wo_props c) then (c, env)
  else without_render props (wo_name c) c env.

(** The button: the three messages through the [onLog] of the last render,
    and a render with the new name. *)
Definition without_toggle (c : Without) (env : Env) : Without * Env :=
  let oldName := wo_name c in
  let newName := other_name oldName in
  let env := foldl (λ env message, emit (OnLog (onLog (wo_props c)) message) env)
                   env (without_changed oldName newName) in
  without_render (wo_props c) newName c env.

(** The interval fires, if it still runs. *)
Definition without_tick (c : Without) (env : Env) : Env :=
  if decide (tc_timer (wo_effect c) ∈ timers env) then
    emit (OnLog (tc_onLog (wo_effect c))
            (without_ticked (wo_effectRecreationCount c) (tc_name (wo_effect c)))) env
  else env.

Definition without_unmount (c : Without) (env : Env) : Env :=
  without_cleanup (wo_effect c) (wo_effectRecreationCount c) env.

Definition without_step (e : CEvent) (st : Without * Env) : Without * Env :=
  match e with
  | Update props => without_update props st.1 st.2
  | ToggleName => without_toggle st.1 st.2
  | Tick => (st.1, without_tick st.1 st.2)
  end.

Definition without_run (evs : list CEvent) (st : Without * Env) : Without * Env :=
  foldl (λ st e, without_step e st) st evs.

(** *** [WithUseEffectEvent] *)

Variable hook : EffectEventHook.

(** An instance of [WithUseEffectEvent]: the state [name], the two refs, the
    props of the last render, the state of the hook, and what the timer
    effect of the first render holds: the [onLogEvent] of that render and
    the interval. *)
Record WithC := mkWithC {
  wi_name : string;
  wi_renderCount : nat;
  wi_effectRecreationCount : nat;
  wi_props : Props;
  wi_hooks : hook_state hook;
  wi_onLogEvent : nat;
  wi_timer : nat
}.

(** The callback of a render with [props] and [name]:
    [(message) => { onLog(`🟢 WITH: ${message} - Name: ${name}`) }]. *)
Definition with_callback (props : Props) (name : string) : Fn Env := λ args env,
  let message := template (default VUndefined (head args)) in
  (Return VUndefined, emit (OnLog (onLog props) (with_logged message name)) env).

(** [onLogEvent(message)], where [h] is the function that the first render
    got from the hook; [None] when the call throws. *)
Definition onLogEvent (hooks : hook_state hook) (h : nat) (message : string) (env : Env)
  : option Env :=
  match hook_call hook hooks h [VStr message] env with
  | Ran (Return _) env' => Some env'
  | Ran (Throw _) _ => None
  | NotCallable => None
  end.

(** The first render and its effects: the mount effect, then the timer
    effect, which has no dependencies. *)
Definition with_mount (props : Props) (env : Env) : option (WithC * Env) :=
  let '(h, hooks) := hook_render hook (with_callback props "John") (hook_init hook) in
  let env := notify props 0 env in
  let count := S 0 in
  let env := notify props count env in
  let '(creationTime, env) := read_clock env in
  env ← onLogEvent hooks h (with_created count creationTime) env;
  let '(timer, env) := setInterval env in
  Some ({| wi_name := "John"; wi_renderCount := 1; wi_effectRecreationCount := count;
           wi_props := props; wi_hooks := hooks; wi_onLogEvent := h; wi_timer := timer |},
        env).

(** A later render: the hook gets the callback of this render; the function
    it gives back goes nowhere, since no effect runs again. *)
Definition with_render (props : Props) (name : string) (c : WithC) : WithC :=
  let '(_, hooks) := hook_render hook (with_callback props name) (wi_hooks c) in
  {| wi_name := name; wi_renderCount := S (wi_renderCount c);
     wi_effectRecreationCount := wi_effectRecreationCount c;
     wi_props := props; wi_hooks := hooks;
     wi_onLogEvent := wi_onLogEvent c; wi_timer := wi_timer c |}.

Definition with_update (props : Props) (c : WithC) : WithC :=
  if decide (props = wi_props c) then c else with_render props (wi_name c) c.

Definition with_toggle (c : WithC) (env : Env) : WithC * Env :=
  let newName := other_name (wi_name c) in
  let env := emit (OnLog (onLog (wi_props c)) (with_changed newName)) env in
  (with_render (wi_props c) newName c, env).

Definition with_tick (c : WithC) (env : Env) : option Env :=
  if decide (wi_timer c ∈ timers env) then
    onLogEvent (wi_hooks c) (wi_onLogEvent c) (with_ticked (wi_effectRecreationCount c)) env
  else Some env.

Definition with_unmount (c : WithC) (env : Env) : option Env :=
  let env := clearInterval (wi_timer c) env in
  let '(time, env) := read_clock env in
  onLogEvent (wi_hooks c) (wi_onLogEvent c) (with_destroyed (wi_effectRecreationCount c) time) env.

Definition with_step (e : CEvent) (st : WithC * Env) : option (WithC * Env) :=
  match e with
  | Update props => Some (with_update props st.1, st.2)
  | ToggleName => Some (with_toggle st.1 st.2)
  | Tick => env ← with_tick st.1 st.2; Some (st.1, env)
  end.

Fixpoint with_run (evs : list CEvent) (st : WithC * Env) : option (WithC * Env) :=
  match evs with
  | [] => Some st
  | e :: evs' => st' ← with_step e st; with_run evs' st'
  end.

(** Between events: the state of the hook is what the renders so far made of
    it, each with the callback of a render, and the timer holds the function
    that the first render got. *)
Definition with_ok (c : WithC) : Prop :=
  ∃ props fns,
    wi_hooks c
    = hook_renders hook fns
        (hook_render hook (with_callback props "John") (hook_init hook)).2
    ∧ wi_onLogEvent c = (hook_render hook (with_callback props "John") (hook_init hook)).1
    ∧ Forall (λ fn, ∃ props' name, fn = with_callback props' name) fns.

End Components.

Arguments WithC hook : clear implicits.
Arguments wi_name {hook} _.
Arguments wi_renderCount {hook} _.
Arguments wi_effectRecreationCount {hook} _.
Arguments wi_props {hook} _.
Arguments wi_hooks {hook} _.
Arguments wi_onLogEvent {hook} _.
Arguments wi_timer {hook} _.
Arguments with_ok {hook} _.
Arguments with_render {hook} _ _ _.
Arguments with_update {hook} _ _.
Arguments with_toggle {hook} _ _.
Arguments with_tick {hook} _ _.
Arguments with_unmount _ {hook} _ _.
Arguments with_step {hook} _ _.
Arguments with_run {hook} _ _.

(** *** What holds of the two components between events *)

(** A mounted [WithoutUseEffectEvent]: the timer effect holds the [onLog] of
    the last render, and its interval runs. *)
Definition without_ok (st : Without * Env) : Prop :=
  tc_onLog (wo_effect st.1) = onLog (wo_props st.1)
  ∧ tc_timer (wo_effect st.1) ∈ timers st.2
  ∧ (tc_timer (wo_effect st.1) < next_timer st.2)%nat.

(** The intervals that run are those that ran before the mount and the one
    of the timer effect. *)
Definition without_timers (before : gset nat) (first : nat) (st : Without * Env) : Prop :=
  timers st.2 = before ∪ {[tc_timer (wo_effect st.1)]}
  ∧ (first ≤ tc_timer (wo_effect st.1) < next_timer st.2)%nat.

(** A call of an [onLog]. *)
Definition is_log (e : Effect) : Prop := ∃ fn message, e = OnLog fn message.

(** ** Inputs used in the examples below *)

(** Twenty-one different messages logged within one second. *)
Definition twenty_one : list (string * string) :=
  (λ m, ("10:00:00", m)) <$>
  ["m01"; "m02"; "m03"; "m04"; "m05"; "m06"; "m07"; "m08"; "m09"; "m10"; "m11";
   "m12"; "m13"; "m14"; "m15"; "m16"; "m17"; "m18"; "m19"; "m20"; "m21"].

(** Two messages, the first of them logged again after the second. *)
Definition x_y_x : list (string * string) := [("t", "x"); ("t", "y"); ("t", "x")].

(** Nine answers for the eight questions; and the eight right answers given
    one after the other, with Next after each. *)
Definition nine_answers : list (option Val) :=
  (λ n, Some (VNum n)) <$> [1; 1; 1; 3; 1; 2; 1; 2; 0]%Z.
Definition eight_right : list Action :=
  concat ((λ n, [HandleAnswer n; NextQuestion]) <$> [1; 1; 1; 3; 1; 2; 1; 2]%Z).

(** Callbacks: [() => 'A'], [() => 'B'], [(x, y) => x + y] on numbers and
    [() => { throw 'E' }]; the world is not used. *)
Definition fn_A : Fn unit := λ _ w, (Return (VStr "A"), w).
Definition fn_B : Fn unit := λ _ w, (Return (VStr "B"), w).
Definition fn_add : Fn unit := λ args w,
  match args with
  | [VNum x; VNum y] => (Return (VNum (x + y)), w)
  | _ => (Return VUndefined, w)
  end.
Definition fn_throw : Fn unit := λ _ w, (Throw (VStr "E"), w).

(** Two mounted instances: instance 0 rendered with ['A'], then instance 1
    with the addition. *)
Definition two_mounted : Store unit :=
  (useEffectEvent 1 fn_add (useEffectEvent 0 fn_A init).2).2.

(** A team of two, a serialisation of team data (names and bonus points) and
    a parser that accepts nothing. *)
Definition two_members : list string := ["Ada"; "Bo"].
Definition show_team (team : gmap string TeamMember) : string :=
  String.concat ";" ((λ kv, kv.1 +:+ "=" +:+ pretty (totalBonus kv.2)) <$> map_to_list team).
Definition no_parse (text : string) : option (gmap string TeamMember) := None.

Definition empty_browser : Browser :=
  {| localStorage := ∅; storage_ops := []; alerts := [] |}.


(** The quiz of the team of two, just mounted with nothing saved. *)
Definition fresh_quiz : ThinkTank * Browser :=
  ({| currentQuestion := 0; selectedAnswers := [];
      showResults := false; showExplanation := false; showLeaderboard := false;
      awardMember := ""; awardedForQuestion := ∅;
      teamData := blankTeam two_members |},
   {| localStorage := ∅; storage_ops := [GetItem storageKey]; alerts := [] |}).

(** Ada is selected, answers the first question and gets the point; then all
    team data is reset. *)
Definition ada_session : list Action :=
  [SetAwardMember "Ada"; HandleAnswer 1; HandleAwardPoint "12:00"; ResetAllTeamData true].

(** A quiz state of the team of two in which Ada is selected and the first
    question is answered. *)
Definition ada_selected : ThinkTank :=
  {| currentQuestion := 0; selectedAnswers := [Some (VNum 1)];
     showResults := false; showExplanation := true; showLeaderboard := false;
     awardMember := "Ada"; awardedForQuestion := ∅;
     teamData := blankTeam two_members |}.

(** Ada is selected, answers the first question and gets the point; the
    same through the controls, followed by Next. *)
Definition ada_point : list Action :=
  [SetAwardMember "Ada"; HandleAnswer 1; HandleAwardPoint "12:00"].
Definition ada_clicks : list Click :=
  [ClickOption 1; ChooseMember "Ada"; ClickGivePoint "12:00"; ClickNext].

(** A parser that knows the text [show_team] makes of the team data after
    that session. *)
Definition read_team (text : string) : option (gmap string TeamMember) :=
  if bool_decide (text = "Ada=1;Bo=0") then
    Some (<["Ada" := mkTeamMember "Ada" 1 1 1 "12:00"]> (blankTeam two_members))
  else None.

(** Props of a demo component, surroundings in which nothing has happened
    yet, a clock, and two clicks on the button followed by a tick. *)
Definition demo_props : Props :=
  {| onLog := 1; onShowCode := 2; onRecreationChange := Some 3 |}.
Definition quiet_env : Env :=
  {| trace := []; clock_reads := 0; next_timer := 0; timers := ∅ |}.
Definition wall_clock (n : nat) : string := "12:00:0" +:+ pretty n.
Definition click_click_tick : list CEvent := [ToggleName; ToggleName; Tick].

Local Close Scope string_scope.

(** * Properties *)

(** ** Part I. The hook *)

Section HookFacts.

Context {World : Type}.
Implicit Types (s : Store World) (fn : Fn World) (i j : nat) (h r : nat).

Lemma useEffectEvent_mounted s i fn r h :
  ref_slot s !! i = Some r → cb_slot s !! i = Some (h, []) →
  useEffectEvent i fn s =
    (h, {| refs := <[r := fn]> (refs s);
           closures := <[next s := r]> (closures s);
           ref_slot := ref_slot s; cb_slot := cb_slot s;
           next := S (next s);
           wlog := wlog s ++ [(r, fn)] |}).
Proof.
  intros Hr Hc. unfold useEffectEvent, bind, useRef, set_current, new_closure, useCallback.
  rewrite Hr. cbn. rewrite Hc. cbn. rewrite decide_True by done. done.
Qed.

Lemma useEffectEvent_first s i fn :
  ref_slot s !! i = None → cb_slot s !! i = None →
  useEffectEvent i fn s =
    (S (next s),
     {| refs := <[next s := fn]> (<[next s := fn]> (refs s));
        closures := <[S (next s) := next s]> (closures s);
        ref_slot := <[i := next s]> (ref_slot s);
        cb_slot := <[i := (S (next s), [])]> (cb_slot s);
        next := S (S (next s));
        wlog := wlog s ++ [(next s, fn)] |}).
Proof.
  intros Hr Hc. unfold useEffectEvent, bind, useRef, set_current, new_closure, useCallback.
  rewrite Hr. cbn. rewrite Hc. done.
Qed.

Lemma Inv_slots s i : Inv s →
  (∃ r h, ref_slot s !! i = Some r ∧ cb_slot s !! i = Some (h, []) ∧ closures s !! h = Some r)
  ∨ (ref_slot s !! i = None ∧ cb_slot s !! i = None).
Proof.
  intros HI. destruct (ref_slot s !! i) as [r|] eqn:Hr.
  - left. destruct (inv_ref_slot _ HI _ _ Hr) as [_ [h Hh]].
    destruct (inv_cb_slot _ HI _ _ _ Hh) as [_ (r' & Hr' & Hc)].
    exists r, h. naive_solver.
  - right. split; [done|]. destruct (cb_slot s !! i) as [[h d]|] eqn:Hc; [|done].
    destruct (inv_cb_slot _ HI _ _ _ Hc) as [_ (r' & Hr' & _)]. congruence.
Qed.

Lemma Inv_init : Inv (@init World).
Proof. split; cbn; intros *; rewrite ?lookup_empty; done. Qed.

Lemma Inv_useEffectEvent s i fn : Inv s → Inv (useEffectEvent i fn s).2.
Proof.
  intros HI. destruct (Inv_slots s i HI) as [(r & h & Hr & Hc & Hcl)|[Hr Hc]].
  - rewrite (useEffectEvent_mounted _ _ _ _ _ Hr Hc). cbn.
    destruct (inv_ref_slot _ HI _ _ Hr) as [[fn0 Hfn0] _].
    pose proof (inv_refs_lt _ HI _ _ Hfn0).
    split; cbn.
    + intros r' fn'. rewrite lookup_insert. case_decide; [lia|].
      intros ?%(inv_refs_lt _ HI). lia.
    + intros h' r'. rewrite lookup_insert. case_decide.
      * intros [= <-]. split; [lia|]. rewrite lookup_insert_eq. eauto.
      * intros [? ?]%(inv_clos _ HI). split; [lia|].
        rewrite lookup_insert. case_decide; eauto.
    + intros i' r' Hi'. destruct (inv_ref_slot _ HI _ _ Hi') as [? ?]. split; [|done].
      rewrite lookup_insert. case_decide; eauto.
    + intros i' h' d Hi'. destruct (inv_cb_slot _ HI _ _ _ Hi') as [-> (r' & ? & Hh')].
      split; [done|]. exists r'. split; [done|].
      rewrite lookup_insert_ne; [done|]. apply (inv_clos _ HI) in Hh'. lia.
    + apply (inv_inj _ HI).
  - rewrite (useEffectEvent_first _ _ _ Hr Hc). cbn.
    split; cbn.
    + intros r' fn'. rewrite !lookup_insert. case_decide; [lia|].
      intros ?%(inv_refs_lt _ HI). lia.
    + intros h' r'. rewrite lookup_insert. case_decide.
      * intros [= <-]. split; [lia|]. rewrite lookup_insert_eq. eauto.
      * intros [? ?]%(inv_clos _ HI). split; [lia|].
        rewrite !lookup_insert. case_decide; eauto.
    + intros i' r'. destruct (decide (i = i')) as [<-|Hne].
      * rewrite !lookup_insert_eq. intros [= <-]. rewrite lookup_insert_eq. eauto.
      * rewrite !(lookup_insert_ne _ i i') by done.
        intros Hi'. destruct (inv_ref_slot _ HI _ _ Hi') as [? ?].
        split; [|done]. rewrite !lookup_insert. case_decide; eauto.
    + intros i' h' d. destruct (decide (i = i')) as [<-|Hne].
      * rewrite !lookup_insert_eq. intros [= <- <-]. split; [done|]. exists (next s).
        rewrite lookup_insert_eq. done.
      * rewrite !(lookup_insert_ne _ i i') by done.
        intros Hi'. destruct (inv_cb_slot _ HI _ _ _ Hi') as [-> (r' & ? & Hh')].
        split; [done|]. exists r'. split; [done|].
        rewrite lookup_insert_ne; [done|]. apply (inv_clos _ HI) in Hh'. lia.
    + intros i' j' r'. rewrite !lookup_insert.
      repeat case_decide; try congruence.
      * intros [= <-] Hj. destruct (inv_ref_slot _ HI _ _ Hj) as [[? ?%(inv_refs_lt _ HI)] _]. lia.
      * intros Hj [= <-]. destruct (inv_ref_slot _ HI _ _ Hj) as [[? ?%(inv_refs_lt _ HI)] _]. lia.
      * apply (inv_inj _ HI).
Qed.

Lemma Inv_unmount s i : Inv s → Inv (unmount i s).
Proof.
  intros HI. split; cbn.
  - apply (inv_refs_lt _ HI).
  - apply (inv_clos _ HI).
  - intros i' r'. rewrite !lookup_delete. case_decide; [done|]. apply (inv_ref_slot _ HI).
  - intros i' h' d. rewrite !lookup_delete. case_decide; [done|]. apply (inv_cb_slot _ HI).
  - intros i' j' r'. rewrite !lookup_delete. repeat case_decide; try done. apply (inv_inj _ HI).
Qed.

Lemma Inv_steps s hist s' : Inv s → steps s hist s' → Inv s'.
Proof. intros HI. induction 1; auto using Inv_useEffectEvent, Inv_unmount. Qed.

Lemma reachable_Inv s : reachable s → Inv s.
Proof. intros [hist H]. eapply Inv_steps; [apply Inv_init | done]. Qed.

Lemma call_resolved s h fn args w : resolve s h = Some fn → call s h args w = direct fn args w.
Proof. unfold call. intros ->. done. Qed.

Lemma resolve_owns s h r : owns s h r → resolve s h = refs s !! r.
Proof. intros [Hc _]. unfold resolve. rewrite Hc. done. Qed.

Lemma useEffectEvent_post s i fn : Inv s →
  ∃ r, ref_slot (useEffectEvent i fn s).2 !! i = Some r
     ∧ cb_slot (useEffectEvent i fn s).2 !! i = Some ((useEffectEvent i fn s).1, [])
     ∧ closures (useEffectEvent i fn s).2 !! (useEffectEvent i fn s).1 = Some r
     ∧ refs (useEffectEvent i fn s).2 !! r = Some fn.
Proof.
  intros HI. destruct (Inv_slots s i HI) as [(r & h & Hr & Hc & Hcl)|[Hr Hc]].
  - rewrite (useEffectEvent_mounted _ _ _ _ _ Hr Hc). cbn. exists r.
    repeat split; try done.
    + rewrite lookup_insert_ne; [done|]. apply (inv_clos _ HI) in Hcl. lia.
    + apply lookup_insert_eq.
  - rewrite (useEffectEvent_first _ _ _ Hr Hc). cbn. exists (next s).
    rewrite !lookup_insert_eq. done.
Qed.

Lemma owns_after_render s i fn : Inv s →
  ∃ r, owns (useEffectEvent i fn s).2 (useEffectEvent i fn s).1 r
     ∧ refs (useEffectEvent i fn s).2 !! r = Some fn.
Proof.
  intros HI. destruct (useEffectEvent_post s i fn HI) as (r & Hr & Hc & Hcl & Hfn).
  exists r. split; [|done]. split; [done|].
  intros j Hj. pose proof (Inv_useEffectEvent s i fn HI) as HI'.
  rewrite (inv_inj _ HI' _ _ _ Hj Hr). eauto.
Qed.

Lemma owns_render_other s i fn h r : Inv s → owns s h r →
  (useEffectEvent i fn s).1 ≠ h →
  owns (useEffectEvent i fn s).2 h r ∧ refs (useEffectEvent i fn s).2 !! r = refs s !! r.
Proof.
  intros HI [Hcl Hown]. destruct (inv_clos _ HI _ _ Hcl) as [Hlt [fn0 Hfn0]].
  pose proof (inv_refs_lt _ HI _ _ Hfn0) as Hrlt.
  destruct (Inv_slots s i HI) as [(ri & hi & Hr & Hc & Hcli)|[Hr Hc]].
  - rewrite (useEffectEvent_mounted _ _ _ _ _ Hr Hc). cbn. intros Hne.
    assert (ri ≠ r) as Hrne.
    { intros ->. destruct (Hown _ Hr) as [d Hd]. congruence. }
    split; [split|]; cbn.
    + rewrite lookup_insert_ne; [done|lia].
    + done.
    + by rewrite lookup_insert_ne.
  - rewrite (useEffectEvent_first _ _ _ Hr Hc). cbn. intros Hne.
    split; [split|]; cbn.
    + rewrite lookup_insert_ne; [done|lia].
    + intros j. destruct (decide (i = j)) as [<-|Hij].
      * rewrite lookup_insert_eq. intros [= ?]. lia.
      * rewrite !(lookup_insert_ne _ i j) by done. apply Hown.
    + rewrite !lookup_insert_ne by lia. done.
Qed.

Lemma owns_unmount s i h r : owns s h r → owns (unmount i s) h r.
Proof.
  intros [Hcl Hown]. split; [done|]. cbn. intros j.
  rewrite !lookup_delete. case_decide; [done|]. apply Hown.
Qed.

Lemma steps_keep s hist s' h r : Inv s → owns s h r → steps s hist s' →
  last_supplied h hist = None → owns s' h r ∧ refs s' !! r = refs s !! r.
Proof.
  intros HI Ho. induction 1 as [|hist s' i fn Hst IH|hist s' i Hst IH]; cbn.
  - done.
  - case_decide as Hh; [done|]. intros Hl. destruct (IH Hl) as [Ho' Heq].
    pose proof (Inv_steps _ _ _ HI Hst) as HI'.
    destruct (owns_render_other s' i fn h r HI' Ho' Hh) as [? ?]. split; congruence.
  - intros Hl. destruct (IH Hl) as [Ho' Heq]. split; [by apply owns_unmount|done].
Qed.

Lemma steps_latest s hist s' h fn : Inv s → steps s hist s' →
  last_supplied h hist = Some fn → ∃ r, owns s' h r ∧ refs s' !! r = Some fn.
Proof.
  intros HI. induction 1 as [|hist s' i fn' Hst IH|hist s' i Hst IH]; cbn.
  - done.
  - pose proof (Inv_steps _ _ _ HI Hst) as HI'. case_decide as Hh.
    + intros [= <-]. rewrite <- Hh. by apply owns_after_render.
    + intros Hl. destruct (IH Hl) as (r & Ho & Hfn). exists r.
      destruct (owns_render_other s' i fn' h r HI' Ho Hh) as [? ?]. split; congruence.
  - intros Hl. destruct (IH Hl) as (r & Ho & Hfn). exists r. split; [by apply owns_unmount|done].
Qed.

Lemma last_supplied_issued h (hist : list (Event World)) :
  (∃ i fn, Rendered i fn h ∈ hist) → is_Some (last_supplied h hist).
Proof.
  intros (i & fn & Hin). induction hist as [|e hist IH]; [by apply elem_of_nil in Hin|].
  apply elem_of_cons in Hin as [<-|Hin]; cbn.
  - rewrite decide_True by done. eauto.
  - destruct e; [case_decide|]; eauto.
Qed.



Lemma handle_of_mounted s i h : Inv s → handle_of s i = Some h →
  ∃ r, ref_slot s !! i = Some r ∧ cb_slot s !! i = Some (h, []) ∧ closures s !! h = Some r.
Proof.
  unfold handle_of. intros HI Hh. destruct (cb_slot s !! i) as [[h' d]|] eqn:Hc; [|done].
  cbn in Hh. injection Hh as ->.
  destruct (inv_cb_slot _ HI _ _ _ Hc) as [-> (r & ? & ?)]. eauto.
Qed.

Lemma handle_of_render s i fn : Inv s →
  handle_of (useEffectEvent i fn s).2 i = Some (useEffectEvent i fn s).1.
Proof.
  intros HI. destruct (useEffectEvent_post s i fn HI) as (r & _ & Hc & _).
  unfold handle_of. by rewrite Hc.
Qed.

Lemma render_again s i fn h : Inv s → handle_of s i = Some h →
  (useEffectEvent i fn s).1 = h.
Proof.
  intros HI (r & Hr & Hc & _)%handle_of_mounted; [|done].
  by rewrite (useEffectEvent_mounted _ _ _ _ _ Hr Hc).
Qed.

Lemma renders_same s i fns h : Inv s → handle_of s i = Some h →
  Forall (λ h', h' = h) (renders i fns s).1.
Proof.
  revert s. induction fns as [|fn fns IH]; intros s HI Hh; cbn; [constructor|].
  pose proof (render_again s i fn h HI Hh) as Hsame.
  pose proof (handle_of_render s i fn HI) as Hnext.
  pose proof (Inv_useEffectEvent s i fn HI) as HI'.
  destruct (useEffectEvent i fn s) as [h1 s1]. cbn in *. subst h1.
  specialize (IH s1 HI' Hnext). destruct (renders i fns s1) as [hs s2]. cbn in *.
  by constructor.
Qed.

(** C2. Identity stability.  In any reachable store, three successive
    renders of instance [i] with [fnA], [fnB], [fnC] return one and the same
    handle, and so does every further render, whatever the callbacks [fns].
    A render returns the handle the instance already had, if it had one; only
    when it had none is the returned handle new: it is no object of the old
    store and differs from the handle of every instance. *)
Theorem handle_identity_stable s i fnA fnB fnC fns :
  reachable s →
  let r1 := useEffectEvent i fnA s in
  let r2 := useEffectEvent i fnB r1.2 in
  let r3 := useEffectEvent i fnC r2.2 in
  r1.1 = r2.1 ∧ r2.1 = r3.1
  ∧ Forall (λ h, h = r1.1) (renders i fns r1.2).1
  ∧ (∀ h, handle_of s i = Some h → r1.1 = h)
  ∧ (handle_of s i = None →
       closures s !! r1.1 = None ∧ ∀ j h, handle_of s j = Some h → h ≠ r1.1).
Proof.
  intros HI%reachable_Inv r1 r2 r3.
  pose proof (Inv_useEffectEvent s i fnA HI) as HI1. fold r1 in HI1.
  pose proof (handle_of_render s i fnA HI) as Hh1. fold r1 in Hh1.
  pose proof (render_again r1.2 i fnB r1.1 HI1 Hh1) as E12. fold r2 in E12.
  pose proof (Inv_useEffectEvent r1.2 i fnB HI1) as HI2. fold r2 in HI2.
  pose proof (handle_of_render r1.2 i fnB HI1) as Hh2. fold r2 in Hh2.
  pose proof (render_again r2.2 i fnC r2.1 HI2 Hh2) as E23. fold r3 in E23.
  split; [done|]. split; [done|]. split; [by apply renders_same|]. split.
  - intros h Hh. by apply render_again.
  - intros Hnone.
    assert (cb_slot s !! i = None) as Hc.
    { unfold handle_of in Hnone. by destruct (cb_slot s !! i). }
    assert (ref_slot s !! i = None) as Hr.
    { destruct (Inv_slots s i HI) as [(? & ? & ? & ? & ?)|[? ?]]; congruence. }
    assert (r1.1 = S (next s)) as -> by (subst r1; by rewrite (useEffectEvent_first _ _ _ Hr Hc)).
    assert (closures s !! S (next s) = None) as Hfresh.
    { destruct (closures s !! S (next s)) eqn:E; [|done]. apply (inv_clos _ HI) in E. lia. }
    split; [done|]. intros j h (r & _ & _ & Hcl)%handle_of_mounted; [|done]. intros ->. by rewrite Hcl in Hfresh.
Qed.


Lemma render_other_instance s i j fn h : Inv s → i ≠ j → handle_of s j = Some h →
  handle_of (useEffectEvent i fn s).2 j = Some h
  ∧ cell_of (useEffectEvent i fn s).2 j = cell_of s j
  ∧ (useEffectEvent i fn s).1 ≠ h
  ∧ resolve (useEffectEvent i fn s).2 h = resolve s h.
Proof.
  intros HI Hij Hh. destruct (handle_of_mounted s j h HI Hh) as (r & Hr & Hc & Hcl).
  assert (owns s h r) as Ho.
  { split; [done|]. intros k Hk. rewrite (inv_inj _ HI _ _ _ Hk Hr). eauto. }
  assert ((useEffectEvent i fn s).1 ≠ h) as Hne.
  { intros Heq. pose proof (Inv_useEffectEvent s i fn HI) as HI'.
    destruct (useEffectEvent_post s i fn HI) as (r' & Hr' & Hc' & Hcl' & _).
    rewrite Heq in Hcl'.
    destruct (owns_after_render s i fn HI) as (r'' & [Hcl'' _] & _). rewrite Heq in Hcl''.
    assert (closures (useEffectEvent i fn s).2 !! h = Some r) as Hkeep.
    { destruct (Inv_slots s i HI) as [(ri & hi & Hri & Hci & _)|[Hri Hci]].
      - rewrite (useEffectEvent_mounted _ _ _ _ _ Hri Hci). cbn.
        rewrite lookup_insert_ne; [done|]. apply (inv_clos _ HI) in Hcl. lia.
      - rewrite (useEffectEvent_first _ _ _ Hri Hci). cbn.
        rewrite lookup_insert_ne; [done|]. apply (inv_clos _ HI) in Hcl. lia. }
    assert (r' = r) as -> by congruence.
    assert (ref_slot (useEffectEvent i fn s).2 !! j = Some r) as Hrj.
    { destruct (Inv_slots s i HI) as [(ri & hi & Hri & Hci & _)|[Hri Hci]].
      - by rewrite (useEffectEvent_mounted _ _ _ _ _ Hri Hci).
      - rewrite (useEffectEvent_first _ _ _ Hri Hci). cbn. by rewrite lookup_insert_ne. }
    apply Hij. apply (inv_inj _ HI' _ _ _ Hr' Hrj). }
  destruct (owns_render_other s i fn h r HI Ho Hne) as [Ho' Heq].
  split; [|split; [|split]].
  - unfold handle_of. destruct (Inv_slots s i HI) as [(ri & hi & Hri & Hci & _)|[Hri Hci]].
    + rewrite (useEffectEvent_mounted _ _ _ _ _ Hri Hci). cbn. by rewrite Hc.
    + rewrite (useEffectEvent_first _ _ _ Hri Hci). cbn. rewrite lookup_insert_ne by done.
      by rewrite Hc.
  - unfold cell_of. destruct (Inv_slots s i HI) as [(ri & hi & Hri & Hci & _)|[Hri Hci]].
    + by rewrite (useEffectEvent_mounted _ _ _ _ _ Hri Hci).
    + rewrite (useEffectEvent_first _ _ _ Hri Hci). cbn. by rewrite lookup_insert_ne.
  - done.
  - rewrite (resolve_owns _ _ _ Ho'), (resolve_owns _ _ _ Ho). done.
Qed.

(** C4. Multi-instance isolation.  In a reachable store in which instance [j]
    has handle [hj], let another instance [i] render with any callback, for
    the first time or again.  The handle returned to [i] is not [hj], and
    [i] and [j] have different cells; [j] keeps its handle and its cell;
    [hj] resolves to the same function as before and calls of it are
    unchanged, while the handle of [i] runs [i]'s new callback. *)
Theorem instance_isolation s i j hj fn :
  reachable s → i ≠ j → handle_of s j = Some hj →
  let r := useEffectEvent i fn s in
  r.1 ≠ hj
  ∧ (∃ ci cj, cell_of r.2 i = Some ci ∧ cell_of r.2 j = Some cj ∧ ci ≠ cj)
  ∧ handle_of r.2 j = Some hj
  ∧ cell_of r.2 j = cell_of s j
  ∧ resolve r.2 hj = resolve s hj
  ∧ (∀ args w, call r.2 hj args w = call s hj args w)
  ∧ (∀ args w, call r.2 r.1 args w = direct fn args w).
Proof.
  intros HI%reachable_Inv Hij Hh r.
  pose proof (Inv_useEffectEvent s i fn HI) as HI'. fold r in HI'.
  pose proof (handle_of_render s i fn HI) as Hhi. fold r in Hhi.
  destruct (render_other_instance s i j fn hj HI Hij Hh) as (Hk & Hc & Hne & Hres).
  fold r in Hk, Hc, Hne, Hres.
  destruct (owns_after_render s i fn HI) as (ri & Hoi & Hfi). fold r in Hoi, Hfi.
  split; [done|]. split; [|split; [done|split; [done|split; [done|split]]]].
  - destruct (handle_of_mounted _ _ _ HI' Hhi) as (ci & Hci & _).
    destruct (handle_of_mounted _ _ _ HI' Hk) as (cj & Hcj & _).
    exists ci, cj. unfold cell_of. split; [done|]. split; [done|].
    intros ->. apply Hij. apply (inv_inj _ HI' _ _ _ Hci Hcj).
  - intros. unfold call. by rewrite Hres.
  - intros. apply call_resolved. by rewrite (resolve_owns _ _ _ Hoi).
Qed.


(** C6. No-op reconstruction.  Rendering instance [i] twice in a row with the
    same [fnA] returns the same handle, leaves the cells as they were after
    the first render, and calls of the handle do the same after one render
    as after two: they run [fnA].  The assignment to the cell is executed in
    each of the two renders. *)
Theorem noop_reconstruction s i fnA :
  reachable s →
  let r1 := useEffectEvent i fnA s in
  let r2 := useEffectEvent i fnA r1.2 in
  r2.1 = r1.1
  ∧ refs r2.2 = refs r1.2
  ∧ (∀ args w, call r2.2 r2.1 args w = call r1.2 r1.1 args w)
  ∧ (∀ args w, call r2.2 r2.1 args w = direct fnA args w)
  ∧ ∃ c, cell_of r1.2 i = Some c
       ∧ wlog r1.2 = wlog s ++ [(c, fnA)]
       ∧ wlog r2.2 = wlog s ++ [(c, fnA); (c, fnA)].
Proof.
  intros HI%reachable_Inv r1 r2.
  pose proof (Inv_useEffectEvent s i fnA HI) as HI1. fold r1 in HI1.
  destruct (useEffectEvent_post s i fnA HI) as (c & Hr & Hc & Hcl & Hfn). fold r1 in Hr, Hc, Hcl, Hfn.
  assert (wlog r1.2 = wlog s ++ [(c, fnA)]) as Hw1.
  { subst r1. destruct (Inv_slots s i HI) as [(ri & hi & Hri & Hci & _)|[Hri Hci]].
    - rewrite (useEffectEvent_mounted _ _ _ _ _ Hri Hci) in Hr |- *. cbn in *. congruence.
    - rewrite (useEffectEvent_first _ _ _ Hri Hci) in Hr |- *. cbn in *.
      rewrite lookup_insert_eq in Hr. congruence. }
  assert (r2 = (r1.1, {| refs := <[c := fnA]> (refs r1.2);
           closures := <[next r1.2 := c]> (closures r1.2);
           ref_slot := ref_slot r1.2; cb_slot := cb_slot r1.2;
           next := S (next r1.2);
           wlog := wlog r1.2 ++ [(c, fnA)] |})) as E2.
  { subst r2. by apply useEffectEvent_mounted. }
  assert (resolve r1.2 r1.1 = Some fnA) as Hres1.
  { unfold resolve. rewrite Hcl. done. }
  assert (resolve r2.2 r2.1 = Some fnA) as Hres2.
  { rewrite E2. unfold resolve. cbn. rewrite lookup_insert_ne.
    - rewrite Hcl. cbn. apply lookup_insert_eq.
    - apply (inv_clos _ HI1) in Hcl. lia. }
  split; [by rewrite E2|]. split.
  { rewrite E2. cbn. by apply insert_id. }
  split; [|split].
  - intros. unfold call. by rewrite Hres1, Hres2.
  - intros. by apply call_resolved.
  - exists c. split; [done|]. split; [done|]. rewrite E2. cbn. rewrite Hw1.
    by rewrite <- app_assoc.
Qed.

End HookFacts.

(** ** Part II. The log sink *)

Lemma slice_last_length {A} n (l : list A) : length (slice_last n l) = min n (length l).
Proof. unfold slice_last. rewrite length_drop. lia. Qed.

Lemma slice_last_snoc {A} n (l : list A) x : slice_last (S n) (l ++ [x]) = slice_last n l ++ [x].
Proof.
  unfold slice_last. rewrite length_app. cbn.
  replace (length l + 1 - S n) with (length l - n) by lia.
  rewrite drop_app_le by lia. done.
Qed.

Lemma slice_last_slice_last {A} n m (l : list A) :
  n ≤ m → slice_last n (slice_last m l) = slice_last n l.
Proof.
  intros H. unfold slice_last. rewrite length_drop, drop_drop. f_equal. lia.
Qed.

Lemma last_index {A} (l : list A) : l !! (length l - 1) = last l.
Proof.
  induction l as [|x l IH] using rev_ind; [done|].
  rewrite last_snoc, length_app. cbn. replace (length l + 1 - 1) with (length l + 0) by lia.
  rewrite lookup_app_r by lia. replace (length l + 0 - length l) with 0 by lia. done.
Qed.

Lemma last_slice_last {A} n (l : list A) : last (slice_last (S n) l) = last l.
Proof.
  induction l as [|x l IH] using rev_ind; [done|].
  rewrite slice_last_snoc, !last_snoc. done.
Qed.

Lemma handleLog_cases ts msg prev :
  (last prev = Some (logWithTime ts msg) ∧ handleLog ts msg prev = prev)
  ∨ (last prev ≠ Some (logWithTime ts msg)
     ∧ handleLog ts msg prev = slice_last 20 prev ++ [logWithTime ts msg]).
Proof.
  unfold handleLog. rewrite last_index.
  destruct (decide (last prev = Some (logWithTime ts msg))) as [Heq|Hne].
  - left. split; [done|]. rewrite (bool_decide_eq_true_2 _ Heq).
    rewrite bool_decide_eq_true_2; [done|]. destruct prev; [done|cbn; lia].
  - right. split; [done|]. rewrite (bool_decide_eq_false_2 _ Hne).
    by rewrite andb_false_r.
Qed.

Lemma drop_repeats_nonempty x l : drop_repeats (x :: l) ≠ [].
Proof.
  revert x. induction l as [|y l IH]; intros x; [done|].
  change (drop_repeats (x :: y :: l)) with
    (if bool_decide (x = y) then drop_repeats (y :: l) else x :: drop_repeats (y :: l)).
  case_bool_decide; [apply IH|done].
Qed.

Lemma last_cons_nonempty {A} (x : A) l : l ≠ [] → last (x :: l) = last l.
Proof. by destruct l. Qed.

Lemma drop_repeats_snoc l x :
  drop_repeats (l ++ [x]) =
    if bool_decide (last (drop_repeats l) = Some x) then drop_repeats l else drop_repeats l ++ [x].
Proof.
  induction l as [|a l IH].
  { cbn. rewrite bool_decide_eq_false_2; [done|]. cbn. discriminate. }
  destruct l as [|b l].
  - cbn. repeat case_bool_decide; simplify_eq; done.
  - change (drop_repeats ((a :: b :: l) ++ [x])) with
      (if bool_decide (a = b) then drop_repeats ((b :: l) ++ [x])
       else a :: drop_repeats ((b :: l) ++ [x])).
    change (drop_repeats (a :: b :: l)) with
      (if bool_decide (a = b) then drop_repeats (b :: l) else a :: drop_repeats (b :: l)).
    rewrite IH. destruct (bool_decide (a = b)); [done|].
    rewrite (last_cons_nonempty a) by apply drop_repeats_nonempty.
    by destruct (bool_decide (last (drop_repeats (b :: l)) = Some x)).
Qed.

Lemma appendAll_snoc entries e logs :
  appendAll (entries ++ [e]) logs = handleLog e.1 e.2 (appendAll entries logs).
Proof. unfold appendAll. by rewrite foldl_app. Qed.

Lemma appendAll_spec entries :
  appendAll entries [] =
    slice_last 21 (drop_repeats ((λ e, logWithTime e.1 e.2) <$> entries)).
Proof.
  induction entries as [|e entries IH] using rev_ind; [done|].
  rewrite appendAll_snoc, fmap_app, IH. cbn [fmap list_fmap].
  rewrite drop_repeats_snoc.
  set (D := drop_repeats _). set (x := logWithTime e.1 e.2).
  destruct (handleLog_cases e.1 e.2 (slice_last 21 D)) as [[Hl ->]|[Hl ->]];
    fold x in Hl |- *; rewrite last_slice_last in Hl.
  - by rewrite bool_decide_eq_true_2.
  - rewrite bool_decide_eq_false_2 by done.
    rewrite slice_last_slice_last by lia. by rewrite slice_last_snoc.
Qed.

Lemma findIndex_from_first {A} (p : A → bool) pre x post k :
  p x = true →
  findIndex_from p (pre ++ x :: post) k = Z.of_nat (k + length pre)
  ↔ Forall (λ y, p y = false) pre.
Proof.
  intros Hx. revert k. induction pre as [|y pre IH]; intros k; cbn.
  - rewrite Hx. split; [constructor|]. intros _. f_equal. lia.
  - destruct (p y) eqn:Hy.
    + split; [lia|]. intros Hf. apply Forall_cons in Hf as [? _]. congruence.
    + rewrite Forall_cons. replace (k + S (length pre)) with (S k + length pre) by lia.
      rewrite IH. tauto.
Qed.

Lemma filter_from_first logs pre l :
  logs = pre ++ l →
  filter_from
    (λ log index, (findIndex (λ l0, bool_decide (l0 = log)) logs =? Z.of_nat index)%Z)
    l (length pre)
  = first_occurrences pre l.
Proof.
  revert pre. induction l as [|x l IH]; intros pre ->; [done|]. cbn.
  assert ((findIndex (λ l0, bool_decide (l0 = x)) (pre ++ x :: l) =? Z.of_nat (length pre))%Z
          = negb (bool_decide (x ∈ pre))) as ->.
  { unfold findIndex.
    pose proof (findIndex_from_first (λ l0, bool_decide (l0 = x)) pre x l 0) as Hf.
    cbn in Hf. rewrite bool_decide_eq_true_2 in Hf by done. specialize (Hf eq_refl).
    case_bool_decide as Hin; cbn.
    - apply Z.eqb_neq. intros Heq. apply Hf in Heq.
      rewrite Forall_forall in Heq. specialize (Heq x Hin).
      by rewrite bool_decide_eq_true_2 in Heq.
    - apply Z.eqb_eq. apply Hf. apply Forall_forall. intros y Hy.
      apply bool_decide_eq_false_2. intros ->. done. }
  specialize (IH (pre ++ [x])). rewrite length_app in IH. cbn in IH.
  replace (length pre + 1) with (S (length pre)) in IH by lia.
  rewrite IH by (by rewrite <- app_assoc).
  by case_bool_decide.
Qed.

Lemma uniqueLogs_spec logs : uniqueLogs logs = slice_last 15 (first_occurrences [] logs).
Proof. unfold uniqueLogs. f_equal. exact (filter_from_first logs [] logs eq_refl). Qed.

Lemma first_occurrences_elem seen l x :
  x ∈ first_occurrences seen l ↔ x ∈ l ∧ x ∉ seen.
Proof.
  revert seen. induction l as [|y l IH]; intros seen; cbn.
  - rewrite elem_of_nil. tauto.
  - case_bool_decide as Hy;
      rewrite ?elem_of_cons, IH, elem_of_app, list_elem_of_singleton, ?elem_of_cons.
    + split.
      * intros [Hl Hn]. split; [by right|]. intros Hs. apply Hn. by left.
      * intros [[-> | Hl] Hn]; [done|]. split; [done|]. intros [? | ->]; done.
    + split.
      * intros [-> | [Hl Hn]]; [split; [by left|done]|].
        split; [by right|]. intros Hs. apply Hn. by left.
      * intros [[-> | Hl] Hn]; [by left|].
        destruct (decide (x = y)) as [->|Hne]; [by left|right].
        split; [done|]. intros [?|?]; done.
Qed.

Lemma first_occurrences_NoDup seen l : NoDup (first_occurrences seen l).
Proof.
  revert seen. induction l as [|y l IH]; intros seen; cbn; [constructor|].
  case_bool_decide; [apply IH|]. constructor; [|apply IH].
  rewrite first_occurrences_elem, elem_of_app, list_elem_of_singleton.
  intros [_ Hn]. apply Hn. by right.
Qed.

Lemma slice_last_subseteq {A} n (l : list A) : slice_last n l ⊆ l.
Proof. apply subseteq_drop. Qed.

(** C7, as amended.  After any sequence of [handleLog] calls the buffer holds
    at most 21 entries: the last 21 entries of the sequence without the
    entries that repeat the one just before them.  One call leaves the buffer
    as it is exactly when the new entry equals the last one, and otherwise
    keeps the last 20 entries and adds the new one.  The displayed list holds
    at most 15 entries: the last 15 of the first occurrences in the buffer;
    it has no entry twice and shows retained entries only. *)
Theorem log_sink_bounds entries ts msg :
  let logs := appendAll entries [] in
  length logs ≤ 21
  ∧ logs = slice_last 21 (drop_repeats ((λ e, logWithTime e.1 e.2) <$> entries))
  ∧ (handleLog ts msg logs =
       if bool_decide (last logs = Some (logWithTime ts msg)) then logs
       else slice_last 20 logs ++ [logWithTime ts msg])
  ∧ length (uniqueLogs logs) ≤ 15
  ∧ uniqueLogs logs = slice_last 15 (first_occurrences [] logs)
  ∧ NoDup (uniqueLogs logs)
  ∧ uniqueLogs logs ⊆ logs.
Proof.
  intros logs. split; [|split; [|split; [|split; [|split; [|split]]]]].
  - subst logs. rewrite appendAll_spec, slice_last_length. lia.
  - apply appendAll_spec.
  - destruct (handleLog_cases ts msg logs) as [[Hl ->]|[Hl ->]].
    + by rewrite bool_decide_eq_true_2.
    + by rewrite bool_decide_eq_false_2.
  - rewrite uniqueLogs_spec, slice_last_length. lia.
  - apply uniqueLogs_spec.
  - rewrite uniqueLogs_spec. unfold slice_last.
    eapply sublist_NoDup; [apply first_occurrences_NoDup|apply sublist_drop].
  - intros x Hx. rewrite uniqueLogs_spec in Hx. apply slice_last_subseteq in Hx.
    apply first_occurrences_elem in Hx. tauto.
Qed.

(** ** Part III. The quiz *)

Section QuizFacts.

Variable TEAM_MEMBERS : list string.
Variable stringify : gmap string TeamMember → string.
Variable parse : string → option (gmap string TeamMember).

Lemma handleAwardPoint_cases now q b :
  (truthy (awardedForQuestion q !! currentQuestion q) = true
   ∧ handleAwardPoint stringify now q b = (q, b))
  ∨ (truthy (awardedForQuestion q !! currentQuestion q) = false
     ∧ awardMember q = ""%string
     ∧ handleAwardPoint stringify now q b = (q, alert "Please choose who gave the correct answer." b))
  ∨ (truthy (awardedForQuestion q !! currentQuestion q) = false
     ∧ awardMember q ≠ ""%string
     ∧ teamData q !! awardMember q = None
     ∧ handleAwardPoint stringify now q b = (q, b))
  ∨ (∃ member,
       truthy (awardedForQuestion q !! currentQuestion q) = false
       ∧ awardMember q ≠ ""%string
       ∧ teamData q !! awardMember q = Some member
       ∧ handleAwardPoint stringify now q b =
           ({| currentQuestion := currentQuestion q; selectedAnswers := selectedAnswers q;
               showResults := showResults q; showExplanation := showExplanation q;
               showLeaderboard := showLeaderboard q; awardMember := awardMember q;
               awardedForQuestion := <[currentQuestion q := awardMember q]> (awardedForQuestion q);
               teamData := awarded now q member |},
            setItem storageKey (stringify (awarded now q member)) b)).
Proof.
  unfold handleAwardPoint.
  destruct (truthy (awardedForQuestion q !! currentQuestion q)) eqn:Ha; [by left|].
  right.
  change (truthy (Some (awardMember q))) with (negb (bool_decide (awardMember q = ""%string))).
  destruct (decide (awardMember q = ""%string)) as [Hsel|Hsel].
  - left. rewrite bool_decide_eq_true_2 by done. by repeat split.
  - right. rewrite bool_decide_eq_false_2 by done. cbn [negb].
    destruct (teamData q !! awardMember q) as [member|] eqn:Ht.
    + right. exists member. by repeat split.
    + left. by repeat split.
Qed.

Lemma truthy_named q k :
  awards_named q →
  truthy (awardedForQuestion q !! k) = true ↔ is_Some (awardedForQuestion q !! k).
Proof.
  intros Hn. unfold truthy. destruct (awardedForQuestion q !! k) as [m|] eqn:E.
  - split; [eauto|]. intros _. apply negb_true_iff, bool_decide_eq_false_2. by eapply Hn.
  - split; [done|]. by intros [? ?].
Qed.

Lemma dispatch_storage a st :
  untouched st (dispatch TEAM_MEMBERS stringify a st) ∨ snapshot_written stringify st (dispatch TEAM_MEMBERS stringify a st).
Proof.
  destruct st as [q b].
  destruct a as [ans|now| | |confirmed|member|show]; unfold dispatch; cbn [fst snd].
  - left; by repeat split.
  - destruct (handleAwardPoint_cases now q b)
      as [[_ ->]|[(_ & _ & ->)|[(_ & _ & _ & ->)|(member & _ & _ & _ & ->)]]].
    + left; by repeat split.
    + left; by repeat split.
    + left; by repeat split.
    + right. by split; cbn.
  - left. unfold nextQuestion. by case_decide.
  - left; by repeat split.
  - destruct confirmed; cbn.
    + right. by split; cbn.
    + left; by repeat split.
  - left; by repeat split.
  - left; by repeat split.
Qed.

Lemma session_snoc acts a st :
  session TEAM_MEMBERS stringify (acts ++ [a]) st
  = dispatch TEAM_MEMBERS stringify a (session TEAM_MEMBERS stringify acts st).
Proof. unfold session. by rewrite foldl_app. Qed.

Lemma session_writes acts st :
  ∃ writes, storage_ops (session TEAM_MEMBERS stringify acts st).2 = storage_ops st.2 ++ writes
          ∧ Forall (snapshot_write stringify) writes.
Proof.
  induction acts as [|a acts IH] using rev_ind.
  - exists []. by rewrite app_nil_r.
  - rewrite session_snoc. destruct IH as (writes & Hw & Hall).
    destruct (dispatch_storage a (session TEAM_MEMBERS stringify acts st)) as [(_ & _ & Hops)|[_ Hops]].
    + exists writes. by rewrite Hops.
    + exists (writes ++ [SetItem storageKey (stringify (teamData (dispatch TEAM_MEMBERS stringify a (session TEAM_MEMBERS stringify acts st)).1))]).
      rewrite Hops, Hw, app_assoc. split; [done|].
      apply Forall_app. split; [done|]. constructor; [|constructor]. by eexists.
Qed.

Lemma mount_reads b q b' :
  mount TEAM_MEMBERS parse b = Some (q, b') →
  storage_ops b' = storage_ops b ++ [GetItem storageKey]
  ∧ localStorage b' = localStorage b
  ∧ Some (teamData q) =
      match localStorage b !! storageKey with
      | Some text => if bool_decide (text = ""%string) then Some (blankTeam TEAM_MEMBERS) else parse text
      | None => Some (blankTeam TEAM_MEMBERS)
      end
  ∧ awardedForQuestion q = ∅ ∧ selectedAnswers q = [] ∧ currentQuestion q = 0.
Proof.
  unfold mount, getItem.
  destruct (localStorage b !! storageKey) as [text|]; cbn.
  - case_bool_decide; cbn.
    + by intros [= <- <-].
    + destruct (parse text); cbn; [|done]. by intros [= <- <-].
  - by intros [= <- <-].
Qed.

(** C8. Whole-map persistence.  Mounting the component reads localStorage
    once, under the key ["thinkTankTeamData"]; after that, whatever the user
    does, nothing is read again and every write stores a whole serialised
    team map under that key.  Every action either leaves both the team data
    and the store as they are, or writes the whole new team data under the
    key; awarding a point that changes the team data and resetting all data
    are of the second kind. *)
Theorem persistence_snapshot b0 q0 b1 acts a :
  mount TEAM_MEMBERS parse b0 = Some (q0, b1) →
  let st := session TEAM_MEMBERS stringify acts (q0, b1) in
  let st' := dispatch TEAM_MEMBERS stringify a st in
  (∃ writes, storage_ops st.2 = storage_ops b0 ++ GetItem storageKey :: writes
           ∧ Forall (snapshot_write stringify) writes)
  ∧ (untouched st st' ∨ snapshot_written stringify st st')
  ∧ (∀ now, untouched st (handleAwardPoint stringify now st.1 st.2)
            ∨ (snapshot_written stringify st (handleAwardPoint stringify now st.1 st.2)
               ∧ teamData (handleAwardPoint stringify now st.1 st.2).1 ≠ teamData st.1))
  ∧ snapshot_written stringify st (resetAllTeamData TEAM_MEMBERS stringify true st.1 st.2)
  ∧ teamData (resetAllTeamData TEAM_MEMBERS stringify true st.1 st.2).1 = blankTeam TEAM_MEMBERS.
Proof.
  intros Hm st st'. apply mount_reads in Hm as (Hops & _).
  split; [|split; [|split; [|split]]].
  - destruct (session_writes acts (q0, b1)) as (writes & Hw & Hall). fold st in Hw.
    exists writes. cbn in Hw. rewrite Hw, Hops, <- app_assoc. done.
  - apply dispatch_storage.
  - intros now. destruct st as [q b]. cbn.
    destruct (handleAwardPoint_cases now q b)
      as [[_ ->]|[(_ & _ & ->)|[(_ & _ & _ & ->)|(member & _ & _ & Hmem & ->)]]].
    + left; by repeat split.
    + left; by repeat split.
    + left; by repeat split.
    + right. split; [by split|]. cbn. unfold awarded. intros Heq.
      apply (f_equal (λ m, totalBonus <$> m !! awardMember q)) in Heq.
      rewrite lookup_insert_eq, Hmem in Heq. cbn in Heq. injection Heq. lia.
  - by split.
  - done.
Qed.

(** C9. The guards of [handleAwardPoint].  In a state whose recorded awards
    name a member: if a point was already awarded for the current question,
    or no member is selected, or the selected member is not in the team
    data, then team data, awards and store are unchanged; otherwise the
    selected member's [questionsAnswered], [correctAnswers] and [totalBonus]
    each grow by exactly 1, every other member's record is unchanged, the
    award is recorded and the whole new team data is stored. *)
Theorem award_point_guard now q b :
  awards_named q →
  let q' := (handleAwardPoint stringify now q b).1 in
  let b' := (handleAwardPoint stringify now q b).2 in
  ((is_Some (awardedForQuestion q !! currentQuestion q)
    ∨ awardMember q = ""%string
    ∨ teamData q !! awardMember q = None) →
     teamData q' = teamData q
     ∧ awardedForQuestion q' = awardedForQuestion q
     ∧ localStorage b' = localStorage b
     ∧ storage_ops b' = storage_ops b)
  ∧ (∀ member,
       awardedForQuestion q !! currentQuestion q = None →
       awardMember q ≠ ""%string →
       teamData q !! awardMember q = Some member →
       (∃ member', teamData q' !! awardMember q = Some member'
                 ∧ questionsAnswered member' = (questionsAnswered member + 1)%Z
                 ∧ correctAnswers member' = (correctAnswers member + 1)%Z
                 ∧ totalBonus member' = (totalBonus member + 1)%Z
                 ∧ name member' = name member)
       ∧ (∀ other, other ≠ awardMember q → teamData q' !! other = teamData q !! other)
       ∧ awardedForQuestion q' = <[currentQuestion q := awardMember q]> (awardedForQuestion q)
       ∧ localStorage b' = <[storageKey := stringify (teamData q')]> (localStorage b)).
Proof.
  intros Hnamed q' b'. subst q' b'.
  destruct (handleAwardPoint_cases now q b)
    as [[Haw ->]|[(Haw & Hsel & ->)|[(Haw & Hsel & Hmem & ->)|(member & Haw & Hsel & Hmem & ->)]]];
    cbn [fst snd].
  - split; [done|]. intros member Hnone. rewrite Hnone in Haw. done.
  - split; [done|]. intros member _ Hne. done.
  - split; [done|]. intros member _ _ Hsome. congruence.
  - split.
    + intros [Hyes|[Hempty|Hnone]].
      * apply (truthy_named q _ Hnamed) in Hyes. congruence.
      * done.
      * congruence.
    + intros member0 _ _ Hsome. assert (member0 = member) as -> by congruence.
      cbn. unfold awarded. split; [|split].
      * eexists. rewrite lookup_insert_eq. by repeat split.
      * intros other Hother. by rewrite lookup_insert_ne.
      * done.
Qed.


Lemma length_spread arr : length (spread arr) = length arr.
Proof. apply length_fmap. Qed.

Lemma array_set_length {A} (arr : list (option A)) i v :
  length (array_set arr i v) = max (length arr) (S i).
Proof.
  unfold array_set. case_decide.
  - rewrite length_insert. lia.
  - rewrite !length_app, length_replicate. cbn. lia.
Qed.

Lemma mount_inv b q b' : mount TEAM_MEMBERS parse b = Some (q, b') → quiz_inv q.
Proof.
  intros (_ & _ & _ & Haw & Hsel & Hcur)%mount_reads. unfold quiz_inv, awards_named.
  rewrite Haw, Hsel, Hcur. cbn. split; [lia|]. split; [lia|].
  intros k member. by rewrite lookup_empty.
Qed.

Lemma dispatch_inv a st : quiz_inv st.1 → quiz_inv (dispatch TEAM_MEMBERS stringify a st).1.
Proof.
  destruct st as [q b]. unfold quiz_inv. change (length quizQuestions) with 8.
  intros (Hcur & Hlen & Hnamed). cbn [fst] in *.
  destruct a as [ans|now| | |confirmed|member|show]; unfold dispatch; cbn [fst snd].
  - repeat split; cbn; try done. rewrite array_set_length, length_spread. lia.
  - destruct (handleAwardPoint_cases now q b)
      as [[_ ->]|[(_ & _ & ->)|[(_ & _ & _ & ->)|(member & _ & Hsel & _ & ->)]]];
      try by repeat split.
    repeat split; cbn; try done. unfold awards_named; cbn. intros k m.
    rewrite lookup_insert. case_decide; [by intros [= <-]|apply Hnamed].
  - unfold nextQuestion. case_decide; repeat split; cbn in *; try done; lia.
  - repeat split; cbn; try lia. unfold awards_named; cbn. intros k m. by rewrite lookup_empty.
  - destruct confirmed; by repeat split.
  - by repeat split.
  - by repeat split.
Qed.

Lemma session_inv acts st : quiz_inv st.1 → quiz_inv (session TEAM_MEMBERS stringify acts st).1.
Proof.
  intros Hinv. induction acts as [|a acts IH] using rev_ind; [done|].
  rewrite session_snoc. by apply dispatch_inv.
Qed.

End QuizFacts.


Lemma score_from pre l acc :
  length pre + length l ≤ length quizQuestions →
  reduce_from
    (λ score answer index,
       question ← quizQuestions !! index;
       Some (score + (if bool_decide (answer = VNum (correctAnswer question)) then 1 else 0))%Z)
    l (length pre) acc
  = Some (acc + Z.of_nat (length (filter (λ i, correct_at (pre ++ l) i = true)
                                         (seq (length pre) (length l)))))%Z.
Proof.
  revert pre acc. change (length quizQuestions) with 8.
  induction l as [|o l IH]; intros pre acc Hlen.
  - cbn. f_equal. lia.
  - cbn [length seq reduce_from]. rewrite filter_cons.
    assert (∀ acc', reduce_from
      (λ score answer index,
         question ← quizQuestions !! index;
         Some (score + (if bool_decide (answer = VNum (correctAnswer question)) then 1 else 0))%Z)
      l (S (length pre)) acc'
      = Some (acc' + Z.of_nat (length (filter (λ i, correct_at (pre ++ o :: l) i = true)
                                         (seq (S (length pre)) (length l)))))%Z) as Hrest.
    { intros acc'. specialize (IH (pre ++ [o]) acc').
      rewrite length_app, <- app_assoc in IH. cbn in IH.
      replace (length pre + 1) with (S (length pre)) in IH by lia.
      apply IH. cbn [length] in Hlen. lia. }
    assert ((pre ++ o :: l) !! length pre = Some o) as Hat.
    { rewrite lookup_app_r by lia. by replace (length pre - length pre) with 0 by lia. }
    assert (correct_at (pre ++ o :: l) (length pre) =
            match o with
            | Some answer =>
                match quizQuestions !! length pre with
                | Some question => bool_decide (answer = VNum (correctAnswer question))
                | None => false
                end
            | None => false
            end) as Hc.
    { unfold correct_at. rewrite Hat. by destruct o. }
    destruct o as [answer|].
    + destruct (lookup_lt_is_Some_2 quizQuestions (length pre)) as [question Hq].
      { change (length quizQuestions) with 8. cbn [length] in Hlen. lia. }
      rewrite Hq in Hc |- *. cbn [mbind option_bind]. rewrite Hrest.
      destruct (decide (correct_at (pre ++ Some answer :: l) (length pre) = true)) as [Ht|Hf].
      * rewrite Hc in Ht. rewrite Ht. cbn [length]. f_equal. lia.
      * rewrite Hc in Hf. apply not_true_is_false in Hf. rewrite Hf. f_equal. lia.
    + rewrite decide_False by (rewrite Hc; done). apply Hrest.
Qed.

(** On an array of selected answers that is no longer than the list of
    questions, [calculateScore] returns the number of indices at which the
    selected answer is the correct answer of the question; that number is
    between 0 and the number of questions. *)
Lemma score_counts_upto (answers : list (option Val)) :
  length answers ≤ length quizQuestions →
  calculateScore answers = Some (Z.of_nat (count_correct answers))
  ∧ (0 ≤ Z.of_nat (count_correct answers) ≤ Z.of_nat (length quizQuestions))%Z.
Proof.
  intros Hlen. split.
  - unfold calculateScore, count_correct.
    pose proof (score_from [] answers 0%Z Hlen) as H. cbn [length app] in H.
    rewrite H. f_equal.
  - unfold count_correct. pose proof (length_filter (λ i, correct_at answers i = true)
      (seq 0 (length answers))) as H. rewrite length_seq in H. lia.
Qed.

(** C10.  [calculateScore] takes no argument: the selected answers it reads
    are those of the state.  In every state of a session, whatever handlers
    ran in whatever order since the component was mounted, it returns the
    number of indices [i] at which [selectedAnswers[i]] is the correct answer
    of question [i]; that number is between 0 and the number of questions. *)
Theorem score_counts TEAM_MEMBERS stringify parse b0 q0 b1 acts :
  mount TEAM_MEMBERS parse b0 = Some (q0, b1) →
  let answers := selectedAnswers (session TEAM_MEMBERS stringify acts (q0, b1)).1 in
  calculateScore answers = Some (Z.of_nat (count_correct answers))
  ∧ (0 ≤ Z.of_nat (count_correct answers) ≤ Z.of_nat (length quizQuestions))%Z.
Proof.
  intros Hm%mount_inv answers.
  destruct (session_inv TEAM_MEMBERS stringify acts (q0, b1) Hm) as (_ & Hlen & _).
  by apply score_counts_upto.
Qed.

(** ** Examples and counterexamples *)

(** C7, as stated, fails.  Twenty-one different messages leave 21 entries in
    the buffer, not at most 20; and a buffer in which no entry repeats the
    one before it is not displayed whole: the later occurrence of an earlier
    entry is removed as well. *)
Lemma log_sink_counterexample :
  ¬ (length (appendAll twenty_one []) ≤ 20)
  ∧ appendAll x_y_x [] = ["[t] x"; "[t] y"; "[t] x"]%string
  ∧ drop_repeats (appendAll x_y_x []) = appendAll x_y_x []
  ∧ uniqueLogs (appendAll x_y_x []) = ["[t] x"; "[t] y"]%string.
Proof.
  split; [|by vm_compute].
  assert (length (appendAll twenty_one []) = 21) as -> by (by vm_compute). lia.
Qed.

(** An answer given at the third question before any other leaves two empty
    slots; the copy that the next [handleAnswer] makes reads them as
    [undefined]. *)
Example handleAnswer_copies_holes :
  selectedAnswers
    (session two_members show_team [NextQuestion; NextQuestion; HandleAnswer 1] fresh_quiz).1
  = [None; None; Some (VNum 1)]
  ∧ selectedAnswers
      (session two_members show_team
         [NextQuestion; NextQuestion; HandleAnswer 1; HandleAnswer 2] fresh_quiz).1
    = [Some VUndefined; Some VUndefined; Some (VNum 2)].
Proof. split; by vm_compute. Qed.

(** [calculateScore] has no guard of its own.  On an array of nine answers,
    which no session builds, it does not return: reading the ninth
    question's correct answer throws. *)
Example calculateScore_nine_answers :
  length nine_answers = 9 ∧ calculateScore nine_answers = None.
Proof. split; [done|]. by vm_compute. Qed.


(** C2 at three renders of one instance from the initial store. *)
Lemma handle_identity_stable_witness :
  (useEffectEvent 0 fn_A (@init unit)).1
  = (useEffectEvent 0 fn_B (useEffectEvent 0 fn_A init).2).1
  ∧ (useEffectEvent 0 fn_B (useEffectEvent 0 fn_A init).2).1
    = (useEffectEvent 0 fn_add (useEffectEvent 0 fn_B (useEffectEvent 0 fn_A init).2).2).1.
Proof.
  assert (reachable (@init unit)) as Hr by (exists []; constructor).
  pose proof (handle_identity_stable init 0 fn_A fn_B fn_add [fn_B; fn_A] Hr) as H.
  destruct H as (H12 & H23 & _). split; [exact H12|exact H23].
Defined.


(** C4 at two mounted instances: after instance 0 swapped ['A'] for ['B'],
    the handle of instance 1 resolves to what it resolved to before,
    instance 1's callback. *)
Lemma instance_isolation_witness :
  0 ≠ 1
  ∧ handle_of two_mounted 1 = Some 3
  ∧ resolve (useEffectEvent 0 fn_B two_mounted).2 3 = resolve two_mounted 3
  ∧ resolve two_mounted 3 = Some fn_add.
Proof.
  assert (reachable two_mounted) as Hr.
  { eexists. apply steps_render, steps_render, steps_nil. }
  assert (0 ≠ 1) as Hne by lia.
  assert (handle_of two_mounted 1 = Some 3) as Hh by reflexivity.
  split; [exact Hne|]. split; [exact Hh|]. split; [|reflexivity].
  destruct (instance_isolation two_mounted 0 1 3 fn_B Hr Hne Hh) as (_ & _ & _ & _ & H & _).
  exact H.
Defined.


(** C6 at two renders with the same ['A']. *)
Lemma noop_reconstruction_witness :
  (useEffectEvent 0 fn_A (useEffectEvent 0 fn_A (@init unit)).2).1
  = (useEffectEvent 0 fn_A init).1
  ∧ refs (useEffectEvent 0 fn_A (useEffectEvent 0 fn_A (@init unit)).2).2
    = refs (useEffectEvent 0 fn_A init).2.
Proof.
  assert (reachable (@init unit)) as Hr by (exists []; constructor).
  destruct (noop_reconstruction init 0 fn_A Hr) as (H1 & H2 & _).
  split; [exact H1|exact H2].
Defined.

(** C8 at a session of the team of two that starts with nothing saved:
    Ada is selected, answers and gets the point; then all data is reset. *)
Lemma persistence_snapshot_witness :
  mount two_members no_parse empty_browser = Some fresh_quiz
  ∧ ∃ writes,
      storage_ops (session two_members show_team ada_session fresh_quiz).2
      = storage_ops empty_browser ++ GetItem storageKey :: writes
      ∧ Forall (snapshot_write show_team) writes.
Proof.
  assert (mount two_members no_parse empty_browser = Some fresh_quiz) as Hm by reflexivity.
  split; [exact Hm|].
  pose proof (persistence_snapshot two_members show_team no_parse empty_browser
                fresh_quiz.1 fresh_quiz.2 ada_session (SetShowLeaderboard true) Hm) as H.
  destruct H as (H & _). exact H.
Defined.

(** What that session did to localStorage: one read, then two whole
    snapshots. *)
Example ada_session_storage :
  storage_ops (session two_members show_team ada_session fresh_quiz).2
  = [GetItem "thinkTankTeamData";
     SetItem "thinkTankTeamData" "Ada=1;Bo=0";
     SetItem "thinkTankTeamData" "Ada=0;Bo=0"]%string.
Proof. by vm_compute. Qed.

(** C9 at [ada_selected]: the point goes to Ada, Bo's record stays. *)
Lemma award_point_guard_witness :
  awards_named ada_selected
  ∧ (∃ member',
       teamData (handleAwardPoint show_team "12:00" ada_selected empty_browser).1 !! "Ada"%string
       = Some member'
       ∧ questionsAnswered member' = 1%Z
       ∧ correctAnswers member' = 1%Z
       ∧ totalBonus member' = 1%Z
       ∧ name member' = "Ada"%string).
Proof.
  assert (awards_named ada_selected) as Hn.
  { intros k member. cbn. rewrite lookup_empty. discriminate. }
  split; [exact Hn|].
  destruct (award_point_guard show_team "12:00" ada_selected empty_browser Hn) as [_ H].
  destruct (H (mkTeamMember "Ada" 0 0 0 "Never") eq_refl ltac:(discriminate) eq_refl)
    as [H' _].
  exact H'.
Defined.

(** C10 at the session of the eight right answers: the score is 8. *)
Lemma score_counts_witness :
  mount two_members no_parse empty_browser = Some fresh_quiz
  ∧ calculateScore (selectedAnswers (session two_members show_team eight_right fresh_quiz).1)
    = Some 8%Z.
Proof.
  assert (mount two_members no_parse empty_browser = Some fresh_quiz) as Hm by reflexivity.
  split; [exact Hm|].
  destruct (score_counts two_members show_team no_parse empty_browser
              fresh_quiz.1 fresh_quiz.2 eight_right Hm) as [H _].
  exact H.
Defined.

(** * Further properties *)

(** ** The handlers and the views of the quiz *)


Section MoreQuizFacts.

Variable TEAM_MEMBERS : list string.
Variable stringify : gmap string TeamMember → string.
Variable parse : string → option (gmap string TeamMember).

(** X2. Once the component is mounted, whatever handlers run in whatever
    order, the current question is one of the quiz questions, and
    [calculateScore] returns a score between 0 and the number of questions:
    it does not throw. *)
Theorem session_never_throws b0 q0 b1 acts :
  mount TEAM_MEMBERS parse b0 = Some (q0, b1) →
  let q := (session TEAM_MEMBERS stringify acts (q0, b1)).1 in
  is_Some (quizQuestions !! currentQuestion q)
  ∧ ∃ score, calculateScore (selectedAnswers q) = Some score
           ∧ (0 ≤ score ≤ Z.of_nat (length quizQuestions))%Z.
Proof.
  intros Hm%mount_inv q.
  destruct (session_inv TEAM_MEMBERS stringify acts (q0, b1) Hm) as (Hcur & Hlen & _).
  fold q in Hcur, Hlen. split; [by apply lookup_lt_is_Some_2|].
  unfold calculateScore. pose proof (score_from [] _ 0%Z Hlen) as H. cbn [length app] in H.
  rewrite H. eexists. split; [done|].
  pose proof (length_filter (λ i, correct_at (selectedAnswers q) i = true)
                (seq 0 (length (selectedAnswers q)))) as Hf.
  rewrite length_seq in Hf. lia.
Qed.

(** X3. [nextQuestion] called [n] times from a state whose current question
    exists: the current question advances by [n] but stops at the last
    question; results are shown once a call was made at the last question
    (and stay shown if they were); answers, team data, awards and the
    selected member are not touched. *)
Theorem nextQuestion_steps n q :
  currentQuestion q < length quizQuestions →
  currentQuestion (Nat.iter n nextQuestion q)
  = min (currentQuestion q + n) (length quizQuestions - 1)
  ∧ showResults (Nat.iter n nextQuestion q)
    = showResults q || bool_decide (length quizQuestions ≤ currentQuestion q + n)
  ∧ selectedAnswers (Nat.iter n nextQuestion q) = selectedAnswers q
  ∧ teamData (Nat.iter n nextQuestion q) = teamData q
  ∧ awardedForQuestion (Nat.iter n nextQuestion q) = awardedForQuestion q
  ∧ awardMember (Nat.iter n nextQuestion q) = awardMember q.
Proof.
  change (length quizQuestions) with 8. intros Hlt.
  induction n as [|n IH].
  - cbn. rewrite bool_decide_eq_false_2 by lia. rewrite orb_false_r.
    repeat split; try done. lia.
  - change (Nat.iter (S n) nextQuestion q) with (nextQuestion (Nat.iter n nextQuestion q)).
    destruct IH as (Hc & Hs & Ha & Ht & Hw & Hm).
    generalize dependent (Nat.iter n nextQuestion q). intros q' Hc Hs Ha Ht Hw Hm.
    unfold nextQuestion. change (length quizQuestions - 1) with 7.
    destruct (decide (currentQuestion q' < 7)) as [Hd|Hd]; cbn.
    + rewrite Hs. repeat split; try done; [lia|].
      f_equal. apply bool_decide_ext. lia.
    + repeat split; try done; [lia|].
      rewrite (bool_decide_eq_true_2 (8 ≤ _)) by lia. by rewrite orb_true_r.
Qed.

(** X4. A second [handleAwardPoint] right after a first one changes neither
    team data nor awards nor localStorage, whatever the first one did: a
    point cannot be given twice for the question by calling the handler
    again. *)
Theorem award_only_once now now' q b :
  let st1 := handleAwardPoint stringify now q b in
  let st2 := handleAwardPoint stringify now' st1.1 st1.2 in
  teamData st2.1 = teamData st1.1
  ∧ awardedForQuestion st2.1 = awardedForQuestion st1.1
  ∧ localStorage st2.2 = localStorage st1.2
  ∧ storage_ops st2.2 = storage_ops st1.2.
Proof.
  intros st1 st2. subst st1 st2.
  destruct (handleAwardPoint_cases stringify now q b)
    as [[Haw ->]|[(Haw & Hsel & ->)|[(Haw & Hsel & Hmem & ->)|(member & Haw & Hsel & Hmem & ->)]]];
    cbn [fst snd].
  - destruct (handleAwardPoint_cases stringify now' q b)
      as [[_ ->]|[(? & _ & _)|[(? & _ & _ & _)|(? & ? & _)]]]; [done|congruence..].
  - destruct (handleAwardPoint_cases stringify now' q
                (alert "Please choose who gave the correct answer." b))
      as [[? _]|[(_ & _ & ->)|[(_ & ? & _ & _)|(? & _ & ? & _)]]]; [congruence|done|done..].
  - destruct (handleAwardPoint_cases stringify now' q b)
      as [[? _]|[(_ & ? & _)|[(_ & _ & _ & ->)|(? & _ & _ & ? & _)]]]; [congruence|done|done|congruence].
  - match goal with |- context [handleAwardPoint stringify now' ?q1 ?b1] =>
      destruct (handleAwardPoint_cases stringify now' q1 b1)
        as [[_ ->]|[(Haw' & _ & _)|[(Haw' & _ & _ & _)|(? & Haw' & _)]]] end; [done|..];
      exfalso; cbn in Haw'; rewrite lookup_insert_eq in Haw'; cbn in Haw';
      rewrite bool_decide_eq_false_2 in Haw' by done; done.
Qed.

Lemma blankTeam_lookup key :
  blankTeam TEAM_MEMBERS !! key
  = if bool_decide (key ∈ TEAM_MEMBERS) then Some (mkTeamMember key 0 0 0 "Never") else None.
Proof.
  unfold blankTeam. induction TEAM_MEMBERS as [|n l IH] using rev_ind.
  - cbn. rewrite lookup_empty. by rewrite bool_decide_eq_false_2 by apply not_elem_of_nil.
  - rewrite foldl_app. cbn. destruct (decide (n = key)) as [->|Hne].
    + rewrite lookup_insert_eq. rewrite bool_decide_eq_true_2; [done|].
      apply elem_of_app. right. by apply list_elem_of_singleton.
    + rewrite lookup_insert_ne by done. rewrite IH.
      apply (f_equal (λ b : bool, if b then _ else _)). apply bool_decide_ext.
      rewrite elem_of_app, list_elem_of_singleton. split; [tauto|]. intros [?|?]; [done|congruence].
Qed.

(** X5. The initial team data holds, for each name of TEAM_MEMBERS and for
    no other key, the record with that name, three zero counters and last
    activity ['Never']; [resetAllTeamData] sets team data back to it when the
    user confirms and does nothing when the user declines. *)
Theorem blankTeam_spec key :
  (key ∈ TEAM_MEMBERS →
     blankTeam TEAM_MEMBERS !! key = Some (mkTeamMember key 0 0 0 "Never"))
  ∧ (key ∉ TEAM_MEMBERS → blankTeam TEAM_MEMBERS !! key = None)
  ∧ (∀ q b, teamData (resetAllTeamData TEAM_MEMBERS stringify true q b).1 !! key
            = blankTeam TEAM_MEMBERS !! key)
  ∧ (∀ q b, resetAllTeamData TEAM_MEMBERS stringify false q b = (q, b)).
Proof.
  rewrite blankTeam_lookup. split; [|split; [|split]].
  - intros Hin. by rewrite bool_decide_eq_true_2.
  - intros Hin. by rewrite bool_decide_eq_false_2.
  - intros q b. cbn. by rewrite blankTeam_lookup.
  - done.
Qed.

(** What mounting makes of the saved text. *)
Lemma mount_team b q b' :
  mount TEAM_MEMBERS parse b = Some (q, b') →
  ∀ b2, localStorage b2 !! storageKey = localStorage b !! storageKey →
  ∃ q2 b2', mount TEAM_MEMBERS parse b2 = Some (q2, b2') ∧ teamData q2 = teamData q.
Proof.
  unfold mount, getItem. intros Hm b2 Heq. rewrite Heq.
  destruct (localStorage b !! storageKey) as [text|]; cbn in *.
  - case_bool_decide; cbn in *.
    + injection Hm as <- <-. eauto.
    + destruct (parse text); cbn in *; [|done]. injection Hm as <- <-. eauto.
  - injection Hm as <- <-. eauto.
Qed.

Lemma mount_saved b team :
  localStorage b !! storageKey = Some (stringify team) →
  parse (stringify team) = Some team → stringify team ≠ ""%string →
  ∃ q b', mount TEAM_MEMBERS parse b = Some (q, b') ∧ teamData q = team.
Proof.
  intros Hl Hp Hne. unfold mount, getItem. rewrite Hl. cbn.
  rewrite bool_decide_eq_false_2 by done. rewrite Hp. cbn. eauto.
Qed.

(** Along a session, either nothing was written and the team data is that of
    the mount, or the saved text is the serialised team data. *)
Lemma session_saved q0 b1 acts :
  let st := session TEAM_MEMBERS stringify acts (q0, b1) in
  (localStorage st.2 = localStorage b1 ∧ teamData st.1 = teamData q0)
  ∨ localStorage st.2 !! storageKey = Some (stringify (teamData st.1)).
Proof.
  induction acts as [|a acts IH] using rev_ind; [by left|].
  rewrite session_snoc. cbn zeta in *.
  destruct (dispatch_storage TEAM_MEMBERS stringify a
              (session TEAM_MEMBERS stringify acts (q0, b1))) as [(Ht & Hl & _)|[Hl _]].
  - destruct IH as [[IHl IHt]|IH]; [left|right]; rewrite ?Ht, ?Hl; [by split|done].
  - right. rewrite Hl. apply lookup_insert_eq.
Qed.

(** X6. What a session leaves in localStorage is what the next mount
    loads: if [JSON.parse] gives back the team data of the end of the session
    from its [JSON.stringify] text, and that text is not empty, then mounting
    over the browser the session left succeeds with that team data. *)
Theorem reload_restores b0 q0 b1 acts :
  mount TEAM_MEMBERS parse b0 = Some (q0, b1) →
  let st := session TEAM_MEMBERS stringify acts (q0, b1) in
  parse (stringify (teamData st.1)) = Some (teamData st.1) →
  stringify (teamData st.1) ≠ ""%string →
  ∃ q' b', mount TEAM_MEMBERS parse st.2 = Some (q', b') ∧ teamData q' = teamData st.1.
Proof.
  intros Hm st Hp Hne. destruct (session_saved q0 b1 acts) as [[Hl Ht]|Hs]; fold st in Hl, Ht || fold st in Hs.
  - rewrite Ht. apply (mount_team _ _ _ Hm). rewrite Hl.
    by apply mount_reads in Hm as (_ & -> & _).
  - by apply mount_saved.
Qed.

Lemma blankTeam_dom key : is_Some (blankTeam TEAM_MEMBERS !! key) ↔ key ∈ TEAM_MEMBERS.
Proof.
  rewrite blankTeam_lookup. case_bool_decide as Hin.
  - split; [done|]. intros _. eauto.
  - split; [|done]. intros [? ?]. done.
Qed.

Lemma team_consistent_blank : team_consistent (blankTeam TEAM_MEMBERS).
Proof.
  intros key member. rewrite blankTeam_lookup. case_bool_decide; [|done].
  intros [= <-]. cbn. repeat split; lia.
Qed.

Lemma dispatch_consistent a st :
  team_consistent (teamData st.1) →
  team_consistent (teamData (dispatch TEAM_MEMBERS stringify a st).1).
Proof.
  destruct st as [q b]. cbn [fst]. intros Hc.
  destruct a as [ans|now| | |confirmed|member|show]; unfold dispatch; cbn [fst snd]; try done.
  - destruct (handleAwardPoint_cases stringify now q b)
      as [[_ ->]|[(_ & _ & ->)|[(_ & _ & _ & ->)|(member & _ & _ & Hmem & ->)]]]; try done.
    cbn. unfold awarded. intros key m. destruct (decide (awardMember q = key)) as [<-|Hne].
    + rewrite lookup_insert_eq. intros [= <-]. cbn.
      destruct (Hc _ _ Hmem) as (? & ? & ? & ?). repeat split; [done|lia..].
    + rewrite lookup_insert_ne by done. apply Hc.
  - unfold nextQuestion. by case_decide.
  - destruct confirmed; [|done]. cbn. apply team_consistent_blank.
Qed.

(** X7. In a quiz that was mounted with nothing saved (no entry, or the
    empty string), whatever handlers run: team data has a record for every
    name of TEAM_MEMBERS and for no other key, every record carries its
    key as name, and its three counters are equal and not negative. *)
Theorem scores_consistent b0 q0 b1 acts :
  mount TEAM_MEMBERS parse b0 = Some (q0, b1) →
  (localStorage b0 !! storageKey = None ∨ localStorage b0 !! storageKey = Some ""%string) →
  let team := teamData (session TEAM_MEMBERS stringify acts (q0, b1)).1 in
  team_consistent team
  ∧ ∀ key, is_Some (team !! key) ↔ key ∈ TEAM_MEMBERS.
Proof.
  intros Hm Hempty team.
  assert (teamData q0 = blankTeam TEAM_MEMBERS) as Hq0.
  { apply mount_reads in Hm as (_ & _ & Ht & _).
    destruct Hempty as [He|He]; rewrite He in Ht; [congruence|].
    rewrite bool_decide_eq_true_2 in Ht by done. congruence. }
  subst team. induction acts as [|a acts IH] using rev_ind.
  - cbn. rewrite Hq0. split; [apply team_consistent_blank|apply blankTeam_dom].
  - rewrite session_snoc. destruct IH as [IHc IHd]. split; [by apply dispatch_consistent|].
    set (st := session TEAM_MEMBERS stringify acts (q0, b1)) in *. clearbody st.
    destruct st as [q b]. cbn [fst] in *.
    destruct a as [ans|now| | |confirmed|member|show]; unfold dispatch; cbn [fst snd]; try done.
    + destruct (handleAwardPoint_cases stringify now q b)
        as [[_ ->]|[(_ & _ & ->)|[(_ & _ & _ & ->)|(member & _ & _ & Hmem & ->)]]]; try done.
      cbn. unfold awarded. intros key. rewrite <- IHd.
      destruct (decide (awardMember q = key)) as [<-|Hne].
      * rewrite lookup_insert_eq, Hmem. split; eauto.
      * by rewrite lookup_insert_ne.
    + unfold nextQuestion. by case_decide.
    + destruct confirmed; [|done]. cbn. apply blankTeam_dom.
Qed.

Lemma correct_at_lookup answers answers' k :
  answers' !! k = answers !! k → correct_at answers' k = correct_at answers k.
Proof. unfold correct_at. by intros ->. Qed.

Lemma correct_at_lt answers k : correct_at answers k = true → k < length answers.
Proof.
  unfold correct_at. destruct (answers !! k) eqn:E; [|done]. intros _.
  by eapply lookup_lt_Some.
Qed.

Lemma spread_numbers arr :
  Forall (λ slot, ∃ n, slot = Some (VNum n)) arr → spread arr = arr.
Proof.
  unfold spread. induction 1 as [|slot arr [n ->] _ IH]; [done|]. cbn. by rewrite IH.
Qed.

Lemma array_set_end {A} (arr : list (option A)) v :
  array_set arr (length arr) v = arr ++ [Some v].
Proof.
  unfold array_set. rewrite decide_False by lia.
  by replace (length arr - length arr) with 0 by lia.
Qed.

Lemma ui_inv_start team :
  ui_inv {| currentQuestion := 0; selectedAnswers := [];
            showResults := false; showExplanation := false; showLeaderboard := false;
            awardMember := ""; awardedForQuestion := ∅; teamData := team |}.
Proof.
  unfold ui_inv. cbn. split; [lia|]. split; [constructor|]. split; [done|]. split; [done|].
  intros k [? Hk]. by rewrite lookup_empty in Hk.
Qed.

Lemma mount_ui_inv b q b' : mount TEAM_MEMBERS parse b = Some (q, b') → ui_inv q.
Proof.
  unfold mount, getItem.
  destruct (localStorage b !! storageKey) as [text|]; cbn.
  - case_bool_decide; cbn.
    + intros [= <- <-]. apply ui_inv_start.
    + destruct (parse text); cbn; [|done]. intros [= <- <-]. apply ui_inv_start.
  - intros [= <- <-]. apply ui_inv_start.
Qed.

Lemma click_ui_inv c st :
  ui_inv st.1 → ui_inv (click TEAM_MEMBERS stringify c st).1.
Proof.
  destruct st as [q b]. unfold ui_inv. change (length quizQuestions) with 8.
  change (8 - 1) with 7. cbn [fst]. intros (Hcur & Hall & Hlen & Hres & Haw).
  unfold click, view. cbn [fst snd].
  destruct (showLeaderboard q) eqn:Hlb; [|destruct (showResults q) eqn:Hsr].
  - (* the leaderboard *)
    destruct c as [index|value|now| | | | |confirmed]; cbn [fst]; try by split_and!.
    destruct confirmed; cbn; by split_and!.
  - (* the results *)
    destruct c as [index|value|now| | | | |confirmed]; cbn [fst];
      try (rewrite ?Hsr; by split_and!).
    + cbn. split_and!; try done; try lia. intros k [? Hk]. by rewrite lookup_empty in Hk.
    + cbn. rewrite Hsr. by split_and!.
  - (* the question *)
    rewrite orb_false_r in Hlen.
    destruct c as [index|value|now| | | | |confirmed]; cbn [fst];
      try (rewrite ?Hsr, ?orb_false_r; by split_and!).
    + destruct (showExplanation q) eqn:Hex; cbn [fst];
        [rewrite Hsr, Hex, orb_false_r; by split_and!|].
      cbn. rewrite Hsr. cbn. rewrite (spread_numbers _ Hall).
      replace (currentQuestion q) with (length (selectedAnswers q)) by lia.
      rewrite array_set_end. split_and!; try done.
      * lia.
      * apply Forall_app. split; [done|]. repeat constructor. eauto.
      * rewrite length_app. cbn. lia.
      * intros k Hk. specialize (Haw k Hk). rewrite <- Haw. apply correct_at_lookup.
        apply lookup_app_l. by apply correct_at_lt.
    + destruct (showExplanation q && correct_at (selectedAnswers q) (currentQuestion q)) eqn:Hg;
        cbn [fst]; [cbn|]; rewrite Hsr, ?orb_false_r; by split_and!.
    + destruct (showExplanation q && correct_at (selectedAnswers q) (currentQuestion q)
                && negb (truthy (awardedForQuestion q !! currentQuestion q))) eqn:Hg;
        cbn [fst]; [|rewrite Hsr, ?orb_false_r; by split_and!].
      apply andb_true_iff in Hg as [[Hex Hcorrect]%andb_true_iff _].
      destruct (handleAwardPoint_cases stringify now q b)
        as [[_ ->]|[(_ & _ & ->)|[(_ & _ & _ & ->)|(member & _ & _ & Hmem & ->)]]];
        cbn [fst]; try (rewrite Hsr, ?orb_false_r; by split_and!).
      cbn. rewrite Hsr, orb_false_r. split_and!; try done.
      intros k. rewrite lookup_insert. case_decide as Hk; [by subst k|apply Haw].
    + destruct (showExplanation q) eqn:Hex; cbn [fst];
        [|rewrite Hsr, Hex, orb_false_r; by split_and!].
      unfold nextQuestion. change (length quizQuestions - 1) with 7.
      case_decide; cbn; rewrite ?Hsr; cbn; split_and!; try done; try lia.
    + cbn. rewrite Hsr, orb_false_r. by split_and!.
Qed.

Lemma visit_snoc clicks c st :
  visit TEAM_MEMBERS stringify (clicks ++ [c]) st
  = click TEAM_MEMBERS stringify c (visit TEAM_MEMBERS stringify clicks st).
Proof. unfold visit. by rewrite foldl_app. Qed.

Lemma visit_ui_inv clicks st :
  ui_inv st.1 → ui_inv (visit TEAM_MEMBERS stringify clicks st).1.
Proof.
  intros Hinv. induction clicks as [|c clicks IH] using rev_ind; [done|].
  rewrite visit_snoc. by apply click_ui_inv.
Qed.

(** X8. Through the controls the views render, whatever is clicked: every
    slot of the answers holds a number (none is empty or [undefined]), there
    is one answer for each question before the
    current one, and one for the current question exactly when its
    explanation or the results are shown; when the results are shown all
    questions are answered; the current question exists. *)
Theorem every_question_answered b0 q0 b1 clicks :
  mount TEAM_MEMBERS parse b0 = Some (q0, b1) →
  let q := (visit TEAM_MEMBERS stringify clicks (q0, b1)).1 in
  Forall (λ slot, ∃ n, slot = Some (VNum n)) (selectedAnswers q)
  ∧ length (selectedAnswers q)
    = currentQuestion q + (if showExplanation q || showResults q then 1 else 0)
  ∧ (showResults q = true → length (selectedAnswers q) = length quizQuestions)
  ∧ is_Some (quizQuestions !! currentQuestion q).
Proof.
  intros Hm%mount_ui_inv q.
  destruct (visit_ui_inv clicks (q0, b1) Hm) as (Hcur & Hall & Hlen & Hres & _).
  fold q in Hcur, Hall, Hlen, Hres. split_and!; try done.
  - intros Hr. destruct (Hres Hr) as [Hc He]. rewrite Hlen, Hr, Hc, orb_true_r.
    change (length quizQuestions) with 8. lia.
  - by apply lookup_lt_is_Some_2.
Qed.

(** X9. Through the controls the views render, a question has an award only
    if its recorded answer is the correct one; so the number of questions
    with an award is at most the score. *)
Theorem awards_within_score b0 q0 b1 clicks :
  mount TEAM_MEMBERS parse b0 = Some (q0, b1) →
  let q := (visit TEAM_MEMBERS stringify clicks (q0, b1)).1 in
  (∀ k, is_Some (awardedForQuestion q !! k) → correct_at (selectedAnswers q) k = true)
  ∧ ∃ score, calculateScore (selectedAnswers q) = Some score
           ∧ (Z.of_nat (size (awardedForQuestion q)) ≤ score)%Z.
Proof.
  intros Hm%mount_ui_inv q.
  destruct (visit_ui_inv clicks (q0, b1) Hm) as (Hcur & Hall & Hlen & Hres & Haw).
  fold q in Hcur, Hall, Hlen, Hres, Haw. split; [done|].
  assert (length (selectedAnswers q) ≤ length quizQuestions) as Hle.
  { rewrite Hlen. revert Hcur. change (length quizQuestions) with 8.
    destruct (showExplanation q || showResults q); lia. }
  unfold calculateScore. pose proof (score_from [] _ 0%Z Hle) as H. cbn [length app] in H.
  rewrite H. eexists. split; [done|].
  set (l := filter _ _).
  assert (dom (awardedForQuestion q) ⊆ list_to_set (C := gset nat) l) as Hsub.
  { intros k Hk. apply elem_of_dom in Hk. apply elem_of_list_to_set.
    subst l. apply list_elem_of_filter. split; [by apply Haw|].
    apply elem_of_seq. split; [lia|]. cbn. by apply correct_at_lt, Haw. }
  apply subseteq_size in Hsub. rewrite size_dom in Hsub.
  rewrite size_list_to_set in Hsub; [lia|].
  subst l. apply NoDup_filter, NoDup_seq.
Qed.

End MoreQuizFacts.

(** ** The log buffer and the lines of the monitor *)


Lemma handleLog_last ts msg prev :
  last (handleLog ts msg prev) = Some (logWithTime ts msg).
Proof.
  destruct (handleLog_cases ts msg prev) as [[Hl ->]|[_ ->]]; [done|apply last_snoc].
Qed.

(** X10. After any sequence of [handleLog] calls from the empty buffer the
    last entry of the buffer is the stamped message of the last call (added
    by it, or already there and left alone); so the buffer is not empty. *)
Theorem newest_entry_last entries e :
  let logs := appendAll (entries ++ [e]) [] in
  last logs = Some (logWithTime e.1 e.2)
  ∧ logWithTime e.1 e.2 ∈ logs
  ∧ logs ≠ [].
Proof.
  intros logs. subst logs. rewrite appendAll_snoc.
  pose proof (handleLog_last e.1 e.2 (appendAll entries [])) as Hl.
  split; [done|]. split.
  - apply last_Some in Hl as [l' ->]. apply elem_of_app. right. by apply list_elem_of_singleton.
  - intros Heq. by rewrite Heq in Hl.
Qed.

Lemma first_occurrences_NoDup_id seen l :
  NoDup (seen ++ l) → first_occurrences seen l = l.
Proof.
  revert seen. induction l as [|x l IH]; intros seen Hnd; [done|]. cbn.
  apply NoDup_app in Hnd as (Hs & Hdis & Hl).
  rewrite bool_decide_eq_false_2.
  - f_equal. apply IH. rewrite <- app_assoc. cbn. apply NoDup_app. done.
  - intros Hin. apply (Hdis x Hin). by left.
Qed.

Lemma first_occurrences_nil seen l :
  first_occurrences seen l = [] → ∀ x, x ∈ l → x ∈ seen.
Proof.
  intros Hnil x Hx. destruct (decide (x ∈ seen)) as [|Hn]; [done|].
  assert (x ∈ first_occurrences seen l) as Hin by (by apply first_occurrences_elem).
  rewrite Hnil in Hin. by apply elem_of_nil in Hin.
Qed.

Lemma slice_last_nil {A} n (l : list A) : 0 < n → slice_last n l = [] → l = [].
Proof.
  intros Hn Hs. apply (f_equal length) in Hs. rewrite slice_last_length in Hs. cbn in Hs.
  destruct l; [done|]. cbn in Hs. lia.
Qed.

(** X11. [uniqueLogs] is empty (the monitor shows "No activity") exactly
    when the buffer is empty; of a buffer without repeated entries it shows
    the last 15, and all of them when there are at most 15. *)
Theorem no_activity_iff_empty logs :
  (uniqueLogs logs = [] ↔ logs = [])
  ∧ (NoDup logs → uniqueLogs logs = slice_last 15 logs)
  ∧ (NoDup logs → length logs ≤ 15 → uniqueLogs logs = logs).
Proof.
  rewrite uniqueLogs_spec. split; [|split].
  - split; [|by intros ->]. intros Hs%slice_last_nil; [|lia].
    destruct logs as [|x logs]; [done|]. exfalso.
    pose proof (first_occurrences_nil [] (x :: logs) Hs x) as Hin.
    eapply not_elem_of_nil, Hin. by left.
  - intros Hnd. by rewrite first_occurrences_NoDup_id.
  - intros Hnd Hlen. rewrite first_occurrences_NoDup_id by done.
    unfold slice_last. by replace (length logs - 15) with 0 by lia.
Qed.

Lemma span_no_close_app ts rest :
  "]"%char ∉ String.list_ascii_of_string ts →
  span_no_close (ts +:+ String "]" rest) = (ts, String "]" rest).
Proof.
  induction ts as [|c ts IH]; intros Hno.
  - done.
  - cbn [String.append span_no_close String.list_ascii_of_string] in *.
    apply not_elem_of_cons in Hno as [Hc Hno].
    change (span_no_close (String c (ts +:+ String "]" rest)) = (String c ts, String "]" rest)).
    cbn [span_no_close]. rewrite bool_decide_eq_false_2 by done. by rewrite (IH Hno).
Qed.

Lemma bracket_first_stamp ts msg :
  ts ≠ ""%string → "]"%char ∉ String.list_ascii_of_string ts →
  bracket_first (logWithTime ts msg) = Some (""%string, ts, String " " msg).
Proof.
  intros Hne Hno.
  change (logWithTime ts msg) with (String "[" (ts +:+ String "]" (String " " msg))).
  cbn [bracket_first bracket_here]. rewrite bool_decide_eq_true_2 by done.
  rewrite (span_no_close_app ts _ Hno). destruct ts as [|c ts]; [done|].
  by rewrite bool_decide_eq_true_2.
Qed.

Lemma skip_space_fuel_done fuel s : drop_space s = None → skip_space_fuel fuel s = s.
Proof. intros H. destruct fuel; [done|]. cbn. by rewrite H. Qed.

Lemma drop_space_shorter s s' : drop_space s = Some s' → String.length s' < String.length s.
Proof.
  unfold drop_space. destruct s as [|c s1]; [done|]. cbn.
  case_bool_decide; [intros [= <-]; lia|].
  destruct s1 as [|c2 s2]; [done|]. case_bool_decide; [intros [= <-]; cbn; lia|].
  destruct s2 as [|c3 s3]; [done|]. case_bool_decide; [intros [= <-]; cbn; lia|done].
Qed.

Lemma skip_space_fuel_any fuel fuel' s :
  String.length s ≤ fuel → String.length s ≤ fuel' →
  skip_space_fuel fuel s = skip_space_fuel fuel' s.
Proof.
  revert fuel' s. induction fuel as [|fuel IH]; intros fuel' s Hf Hf'.
  - destruct s; [|cbn in Hf; lia]. by destruct fuel'.
  - destruct fuel' as [|fuel'].
    + destruct s; [done|cbn in Hf'; lia].
    + cbn. destruct (drop_space s) as [s'|] eqn:E; [|done].
      apply drop_space_shorter in E. apply IH; lia.
Qed.

Lemma skip_space_stripped s : drop_space (skip_space s) = None.
Proof.
  unfold skip_space. generalize (Nat.le_refl (String.length s)).
  generalize (String.length s) at 2 3. intros fuel. revert s.
  induction fuel as [|fuel IH]; intros s Hf.
  - destruct s; [done|cbn in Hf; lia].
  - cbn. destruct (drop_space s) as [s'|] eqn:E; [|done].
    apply IH. apply drop_space_shorter in E. lia.
Qed.

Lemma skip_space_space msg : skip_space (String " " msg) = skip_space msg.
Proof.
  unfold skip_space. cbn [String.length skip_space_fuel].
  assert (drop_space (String " " msg) = Some msg) as -> by done. done.
Qed.

(** X12. The monitor reads back what [handleLog] wrote.  For a time stamp
    that is not empty and contains no []], the first regular expression finds
    the time stamp of the entry, and removing the second leaves the message
    without its leading white space: the message itself, when it does not
    start with white space. *)
Theorem log_line_round_trip ts msg :
  ts ≠ ""%string → "]"%char ∉ String.list_ascii_of_string ts →
  logTime (logWithTime ts msg) = Some ts
  ∧ logMessage (logWithTime ts msg) = skip_space msg
  ∧ drop_space (skip_space msg) = None
  ∧ (drop_space msg = None → logMessage (logWithTime ts msg) = msg).
Proof.
  intros Hne Hno. unfold logTime, logMessage.
  rewrite (bracket_first_stamp ts msg Hne Hno). cbn [String.append].
  rewrite skip_space_space. split; [done|]. split; [done|]. split; [apply skip_space_stripped|].
  intros Hd. unfold skip_space. by apply skip_space_fuel_done.
Qed.

(** ** The two demo components *)

Section ComponentFacts.

Variable clock : nat → string.

Lemma notify_frame props count env :
  timers (notify props count env) = timers env
  ∧ next_timer (notify props count env) = next_timer env
  ∧ clock_reads (notify props count env) = clock_reads env.
Proof. unfold notify. by destruct (onRecreationChange props). Qed.

Lemma without_effect_spec props name count env :
  let r := without_effect clock props name count env in
  r.1.1 = S count
  ∧ r.1.2 = {| tc_onLog := onLog props; tc_name := name; tc_timer := next_timer env |}
  ∧ timers r.2 = {[next_timer env]} ∪ timers env
  ∧ next_timer r.2 = S (next_timer env)
  ∧ trace r.2 = trace (notify props (S count) env)
                ++ [OnLog (onLog props) (without_created (S count) (clock (clock_reads env)));
                    SetInterval (next_timer env)].
Proof.
  unfold without_effect, read_clock, setInterval, emit. cbn.
  destruct (notify_frame props (S count) env) as (Ht & Hn & Hc).
  rewrite Ht, Hn, Hc. split_and!; try done. by rewrite <- app_assoc.
Qed.

Lemma without_cleanup_spec tc count env :
  timers (without_cleanup clock tc count env) = timers env ∖ {[tc_timer tc]}
  ∧ next_timer (without_cleanup clock tc count env) = next_timer env
  ∧ trace (without_cleanup clock tc count env)
    = trace env ++ [ClearInterval (tc_timer tc);
                    OnLog (tc_onLog tc) (without_destroyed count (clock (clock_reads env)))].
Proof.
  unfold without_cleanup, read_clock, clearInterval, emit. cbn.
  split_and!; try done. by rewrite <- app_assoc.
Qed.

Lemma without_mount_ok props env : without_ok (without_mount clock props env).
Proof.
  unfold without_mount.
  pose proof (without_effect_spec props "John" 0 (notify props 0 env)) as H. cbn zeta in H.
  destruct (without_effect clock props "John" 0 (notify props 0 env)) as [[count tc] env'].
  cbn in *. destruct H as (_ & -> & Ht & Hn & _). unfold without_ok. cbn.
  rewrite Ht, Hn. split_and!; [done| |lia]. apply elem_of_union_l. by apply elem_of_singleton.
Qed.


Lemma emit_all_frame fn messages env :
  let env' := foldl (λ env message, emit (OnLog fn message) env) env messages in
  timers env' = timers env ∧ next_timer env' = next_timer env
  ∧ clock_reads env' = clock_reads env
  ∧ trace env' = trace env ++ (OnLog fn <$> messages).
Proof.
  revert env. induction messages as [|m messages IH]; intros env; cbn.
  - by rewrite app_nil_r.
  - destruct (IH (emit (OnLog fn m) env)) as (Ht & Hn & Hc & Htr). cbn zeta in *.
    rewrite Ht, Hn, Hc, Htr. cbn. by rewrite <- app_assoc.
Qed.

(** A render whose [onLog] is the one the timer effect holds does nothing
    but count the render. *)
Lemma without_render_same props name c env :
  onLog props = tc_onLog (wo_effect c) →
  without_render clock props name c env
  = ({| wo_name := name; wo_renderCount := S (wo_renderCount c);
        wo_effectRecreationCount := wo_effectRecreationCount c;
        wo_props := props; wo_effect := wo_effect c |}, env).
Proof. intros H. unfold without_render. by rewrite decide_True. Qed.

(** A render with another [onLog] replaces the timer. *)
Lemma without_render_other props name c env :
  onLog props ≠ tc_onLog (wo_effect c) →
  let st' := without_render clock props name c env in
  wo_name st'.1 = name
  ∧ wo_props st'.1 = props
  ∧ wo_effectRecreationCount st'.1 = S (wo_effectRecreationCount c)
  ∧ wo_effect st'.1
    = {| tc_onLog := onLog props; tc_name := name; tc_timer := next_timer env |}
  ∧ timers st'.2 = {[next_timer env]} ∪ (timers env ∖ {[tc_timer (wo_effect c)]})
  ∧ next_timer st'.2 = S (next_timer env)
  ∧ trace st'.2
    = trace (notify props (S (wo_effectRecreationCount c))
               (without_cleanup clock (wo_effect c) (wo_effectRecreationCount c) env))
      ++ [OnLog (onLog props)
            (without_created (S (wo_effectRecreationCount c)) (clock (S (clock_reads env))));
          SetInterval (next_timer env)].
Proof.
  intros Hne. unfold without_render. rewrite decide_False by done.
  destruct (without_cleanup_spec (wo_effect c) (wo_effectRecreationCount c) env)
    as (Ht1 & Hn1 & _).
  assert (clock_reads (without_cleanup clock (wo_effect c) (wo_effectRecreationCount c) env)
          = S (clock_reads env)) as Hc1 by done.
  generalize dependent (without_cleanup clock (wo_effect c) (wo_effectRecreationCount c) env).
  intros env1 Ht1 Hn1 Hc1.
  pose proof (without_effect_spec props name (wo_effectRecreationCount c) env1) as H.
  cbn zeta in H.
  destruct (without_effect clock props name (wo_effectRecreationCount c) env1)
    as [[count tc] env2]. cbn in H |- *.
  destruct H as (-> & -> & Ht & Hn & Htr).
  rewrite Ht, Hn, Htr, Ht1, Hn1, Hc1. done.
Qed.

Lemma without_step_ok e st : without_ok st → without_ok (without_step clock e st).
Proof.
  destruct st as [c env]. unfold without_ok. cbn [fst snd]. intros (Hdep & Hin & Hlt).
  assert (∀ props name env1,
            timers env1 = timers env → next_timer env1 = next_timer env →
            let st' := without_render clock props name c env1 in
            tc_onLog (wo_effect st'.1) = onLog (wo_props st'.1)
            ∧ tc_timer (wo_effect st'.1) ∈ timers st'.2
            ∧ tc_timer (wo_effect st'.1) < next_timer st'.2) as Hrender.
  { intros props name env1 Ht Hn. cbn zeta.
    destruct (decide (onLog props = tc_onLog (wo_effect c))) as [Heq|Hne].
    - rewrite (without_render_same _ _ _ _ Heq). cbn. rewrite Ht, Hn. done.
    - destruct (without_render_other props name c env1 Hne) as (_ & Hp & _ & He & Ht' & Hn' & _).
      cbn zeta in *. rewrite Hp, He, Ht', Hn'.
      cbn. split_and!; [done| |lia]. apply elem_of_union_l. by apply elem_of_singleton. }
  destruct e as [props| |]; cbn [without_step fst snd].
  - unfold without_update. case_decide; [done|]. by apply Hrender.
  - unfold without_toggle.
    destruct (emit_all_frame (onLog (wo_props c))
                (without_changed (wo_name c) (other_name (wo_name c))) env) as (Ht & Hn & _).
    by apply Hrender.
  - unfold without_tick. rewrite decide_True by done. done.
Qed.

Lemma without_run_cons e evs st :
  without_run clock (e :: evs) st = without_run clock evs (without_step clock e st).
Proof. done. Qed.

Lemma without_run_ok evs st : without_ok st → without_ok (without_run clock evs st).
Proof.
  revert st. induction evs as [|e evs IH]; intros st Hok; [done|].
  rewrite without_run_cons. by apply IH, without_step_ok.
Qed.

Lemma without_step_count e st :
  without_ok st →
  wo_effectRecreationCount (without_step clock e st).1
  = wo_effectRecreationCount st.1 + onLog_changes (onLog (wo_props st.1)) [e]
  ∧ onLog (wo_props (without_step clock e st).1)
    = match e with Update props => onLog props | _ => onLog (wo_props st.1) end.
Proof.
  destruct st as [c env]. intros (Hdep & _). cbn [fst snd] in *.
  destruct e as [props| |]; cbn [without_step fst snd onLog_changes].
  - unfold without_update. case_decide as Hp.
    + subst props. rewrite bool_decide_eq_true_2 by done. cbn. split; [lia|done].
    + destruct (decide (onLog props = tc_onLog (wo_effect c))) as [Heq|Hne].
      * rewrite (without_render_same _ _ _ _ Heq). cbn.
        rewrite bool_decide_eq_true_2 by congruence. cbn. split; [lia|done].
      * destruct (without_render_other props (wo_name c) c env Hne) as (_ & Hp' & Hc' & _).
        cbn zeta in *. rewrite Hp', Hc'.
        rewrite bool_decide_eq_false_2 by congruence. cbn. split; [lia|done].
  - unfold without_toggle. rewrite without_render_same by done. cbn. split; [lia|done].
  - split; [lia|done].
Qed.

Lemma without_run_count evs st :
  without_ok st →
  wo_effectRecreationCount (without_run clock evs st).1
  = wo_effectRecreationCount st.1 + onLog_changes (onLog (wo_props st.1)) evs.
Proof.
  revert st. induction evs as [|e evs IH]; intros st Hok; [cbn; lia|].
  rewrite without_run_cons. rewrite IH by (by apply without_step_ok).
  destruct (without_step_count e st Hok) as [-> ->].
  destruct e as [props| |]; cbn [onLog_changes]; lia.
Qed.


Lemma without_mount_spec props env :
  let st := without_mount clock props env in
  wo_name st.1 = "John"%string
  ∧ wo_props st.1 = props
  ∧ wo_effectRecreationCount st.1 = 1
  ∧ wo_effect st.1 = {| tc_onLog := onLog props; tc_name := "John"; tc_timer := next_timer env |}
  ∧ timers st.2 = {[next_timer env]} ∪ timers env
  ∧ next_timer st.2 = S (next_timer env)
  ∧ trace st.2
    = trace (notify props 1 (notify props 0 env))
      ++ [OnLog (onLog props) (without_created 1 (clock (clock_reads env)));
          SetInterval (next_timer env)].
Proof.
  unfold without_mount.
  pose proof (without_effect_spec props "John" 0 (notify props 0 env)) as H. cbn zeta in H.
  destruct (without_effect clock props "John" 0 (notify props 0 env)) as [[count tc] env'].
  cbn in *. destruct H as (-> & -> & Ht & Hn & Htr).
  destruct (notify_frame props 0 env) as (Ht0 & Hn0 & Hc0).
  rewrite Ht, Hn, Htr, Ht0, Hn0, Hc0. done.
Qed.

(** X13. [WithoutUseEffectEvent], after mount and any events: the
    recreation counter is 1 plus the number of renders in which [onLog] was
    another function than in the render before; the timer effect holds the
    [onLog] of the last render and its interval runs.  A render with the same
    [onLog] keeps the effect and does nothing outside; a render with another
    [onLog] adds 1 to the counter, stops the old interval and captures the
    name of that render. *)
Theorem without_recreations_counted props env evs props' :
  let st := without_run clock evs (without_mount clock props env) in
  wo_effectRecreationCount st.1 = 1 + onLog_changes (onLog props) evs
  ∧ tc_onLog (wo_effect st.1) = onLog (wo_props st.1)
  ∧ tc_timer (wo_effect st.1) ∈ timers st.2
  ∧ (onLog props' = onLog (wo_props st.1) →
       wo_effect (without_update clock props' st.1 st.2).1 = wo_effect st.1
       ∧ (without_update clock props' st.1 st.2).2 = st.2)
  ∧ (onLog props' ≠ onLog (wo_props st.1) →
       wo_effectRecreationCount (without_update clock props' st.1 st.2).1
       = S (wo_effectRecreationCount st.1)
       ∧ tc_name (wo_effect (without_update clock props' st.1 st.2).1) = wo_name st.1
       ∧ tc_timer (wo_effect st.1) ∉ timers (without_update clock props' st.1 st.2).2).
Proof.
  intros st. pose proof (without_mount_ok props env) as Hok0.
  pose proof (without_run_ok evs _ Hok0) as Hok. fold st in Hok.
  pose proof (without_run_count evs _ Hok0) as Hcount. fold st in Hcount.
  destruct (without_mount_spec props env) as (_ & Hp & Hc & _). cbn zeta in Hp, Hc.
  rewrite Hp, Hc in Hcount. destruct Hok as (Hdep & Hin & Hlt).
  split; [done|]. split; [done|]. split; [done|]. split.
  - intros Heq. unfold without_update. case_decide; [done|].
    rewrite without_render_same by congruence. done.
  - intros Hne. unfold without_update. rewrite decide_False by congruence.
    destruct (without_render_other props' (wo_name st.1) st.1 st.2) as (_ & _ & Hc' & He & Ht & _);
      [congruence|]. cbn zeta in *. rewrite Hc', He, Ht. cbn. split; [done|]. split; [done|].
    intros [Hin'%elem_of_singleton|Hin']%elem_of_union; [lia|].
    apply elem_of_difference in Hin' as [_ Hn]. apply Hn. by apply elem_of_singleton.
Qed.

Lemma without_step_timers before first e st :
  (∀ t, t ∈ before → t < first) → without_ok st →
  without_timers before first st → without_timers before first (without_step clock e st).
Proof.
  destruct st as [c env]. unfold without_timers. cbn [fst snd].
  intros Hfresh (Hdep & _) (Ht & Hge & Hlt). cbn [fst snd] in Hdep.
  assert (∀ props name env1,
            timers env1 = timers env → next_timer env1 = next_timer env →
            let st' := without_render clock props name c env1 in
            timers st'.2 = before ∪ {[tc_timer (wo_effect st'.1)]}
            ∧ first ≤ tc_timer (wo_effect st'.1) < next_timer st'.2) as Hrender.
  { intros props name env1 Ht1 Hn1. cbn zeta.
    destruct (decide (onLog props = tc_onLog (wo_effect c))) as [Heq|Hne].
    - rewrite (without_render_same _ _ _ _ Heq). cbn. rewrite Ht1, Hn1. done.
    - destruct (without_render_other props name c env1 Hne) as (_ & _ & _ & He & Ht' & Hn' & _).
      cbn zeta in *. rewrite He, Ht', Hn', Ht1, Hn1, Ht. cbn. split; [|lia].
      apply set_eq. intros t. rewrite !elem_of_union, elem_of_difference, !elem_of_union,
        !elem_of_singleton.
      split.
      + intros [-> | [[?|?] ?]]; [by right|by left|done].
      + intros [Hb | ->]; [|by left]. right. split; [by left|].
        specialize (Hfresh t Hb). lia. }
  destruct e as [props| |]; cbn [without_step fst snd].
  - unfold without_update. case_decide; [done|]. by apply Hrender.
  - unfold without_toggle.
    destruct (emit_all_frame (onLog (wo_props c))
                (without_changed (wo_name c) (other_name (wo_name c))) env) as (Ht1 & Hn1 & _).
    by apply Hrender.
  - unfold without_tick. case_decide; done.
Qed.

Lemma without_run_timers before first evs st :
  (∀ t, t ∈ before → t < first) → without_ok st →
  without_timers before first st → without_timers before first (without_run clock evs st).
Proof.
  intros Hfresh. revert st. induction evs as [|e evs IH]; intros st Hok Ht; [done|].
  rewrite without_run_cons. apply IH; [by apply without_step_ok|by apply without_step_timers].
Qed.

(** X14. [WithoutUseEffectEvent] never leaks an interval: if timer ids are
    fresh, then after mount and any events the running intervals are those
    that ran before the mount and one more, the one of the timer effect, and
    unmounting leaves exactly those that ran before. *)
Theorem without_one_timer props env evs :
  (∀ t, t ∈ timers env → t < next_timer env) →
  let st := without_run clock evs (without_mount clock props env) in
  timers st.2 = timers env ∪ {[tc_timer (wo_effect st.1)]}
  ∧ (tc_timer (wo_effect st.1) ∉ timers env)
  ∧ timers (without_unmount clock st.1 st.2) = timers env.
Proof.
  intros Hfresh st.
  assert (without_timers (timers env) (next_timer env) (without_mount clock props env)) as H0.
  { destruct (without_mount_spec props env) as (_ & _ & _ & He & Ht & Hn & _).
    unfold without_timers. cbn zeta in *. rewrite He, Ht, Hn. cbn. split; [|lia].
    apply set_eq. intros t. rewrite !elem_of_union. tauto. }
  destruct (without_run_timers _ _ evs _ Hfresh (without_mount_ok props env) H0) as (Ht & Hge & Hlt).
  fold st in Ht, Hge, Hlt.
  assert (tc_timer (wo_effect st.1) ∉ timers env) as Hnot.
  { intros Hin. specialize (Hfresh _ Hin). lia. }
  split; [done|]. split; [done|].
  unfold without_unmount.
  destruct (without_cleanup_spec (wo_effect st.1) (wo_effectRecreationCount st.1) st.2) as (-> & _).
  rewrite Ht. apply set_eq. intros t.
  rewrite elem_of_difference, elem_of_union, elem_of_singleton. split; [|intros Hin; split; [by left|]].
  - intros [[?|?] ?]; done.
  - intros ->. done.
Qed.

Lemma without_run_no_change evs st :
  without_ok st → onLog_changes (onLog (wo_props st.1)) evs = 0 →
  wo_effect (without_run clock evs st).1 = wo_effect st.1
  ∧ wo_effectRecreationCount (without_run clock evs st).1 = wo_effectRecreationCount st.1
  ∧ onLog (wo_props (without_run clock evs st).1) = onLog (wo_props st.1)
  ∧ wo_name (without_run clock evs st).1 = Nat.iter (toggles evs) other_name (wo_name st.1).
Proof.
  revert st. induction evs as [|e evs IH]; intros st Hok Hno; [done|].
  rewrite without_run_cons.
  assert (wo_effect (without_step clock e st).1 = wo_effect st.1
          ∧ wo_effectRecreationCount (without_step clock e st).1 = wo_effectRecreationCount st.1
          ∧ onLog (wo_props (without_step clock e st).1) = onLog (wo_props st.1)
          ∧ wo_name (without_step clock e st).1
            = match e with ToggleName => other_name (wo_name st.1) | _ => wo_name st.1 end
          ∧ onLog_changes (onLog (wo_props st.1)) evs = 0) as (He & Hc & Hp & Hn & Hno').
  { destruct st as [c env]. destruct Hok as (Hdep & _). cbn [fst snd] in *.
    destruct e as [props| |]; cbn [without_step fst snd onLog_changes] in *.
    - case_bool_decide as Hsame; [|lia]. unfold without_update. case_decide; [by subst|].
      rewrite without_render_same by congruence. cbn. rewrite Hsame in Hno. by split_and!.
    - unfold without_toggle. rewrite without_render_same by done. done.
    - done. }
  rewrite <- Hp in Hno'. destruct (IH _ (without_step_ok e st Hok) Hno') as (-> & -> & -> & ->).
  rewrite He, Hc, Hp, Hn. split_and!; try done.
  destruct e; cbn [toggles]; try done. by rewrite Nat.iter_succ_r.
Qed.

(** X15. The stale name of [WithoutUseEffectEvent]: as long as no render
    brings another [onLog], the timer keeps the name of the first render.
    After any such events the name on screen has changed with each click,
    the counter is 1, and a tick logs [Name: John]. *)
Theorem without_name_stale props env evs :
  onLog_changes (onLog props) evs = 0 →
  let st := without_run clock evs (without_mount clock props env) in
  tc_name (wo_effect st.1) = "John"%string
  ∧ wo_name st.1 = Nat.iter (toggles evs) other_name "John"%string
  ∧ wo_effectRecreationCount st.1 = 1
  ∧ trace (without_tick st.1 st.2)
    = trace st.2 ++ [OnLog (onLog props) (without_ticked 1 "John")].
Proof.
  intros Hno st. pose proof (without_mount_ok props env) as Hok0.
  destruct (without_mount_spec props env) as (Hn & Hp & Hc & He & _). cbn zeta in *.
  rewrite <- Hp in Hno at 1.
  destruct (without_run_no_change evs _ Hok0 Hno) as (He' & Hc' & Hp' & Hn').
  fold st in He', Hc', Hp', Hn'. rewrite He in He'. rewrite Hc in Hc'. rewrite Hn in Hn'.
  destruct (without_run_ok evs _ Hok0) as (_ & Hin & _). fold st in Hin.
  rewrite He'. split; [done|]. split; [done|]. split; [done|].
  unfold without_tick. rewrite decide_True by done. rewrite He', Hc'. done.
Qed.

End ComponentFacts.

Lemma hook_renders_snoc hook fns fn s :
  hook_renders hook (fns ++ [fn]) s = (hook_render hook fn (hook_renders hook fns s)).2.
Proof. unfold hook_renders. by rewrite foldl_app. Qed.

(** The hook of Part I runs the callback of the latest render, so it is a
    hook as the component needs it. *)
Lemma polyfill_runs_latest (fns : list (Fn Env)) (s : Store Env) h fn :
  Inv s → handle_of s 0 = Some h → resolve s h = Some fn →
  Inv (hook_renders polyfill fns s)
  ∧ handle_of (hook_renders polyfill fns s) 0 = Some h
  ∧ resolve (hook_renders polyfill fns s) h = Some (default fn (last fns)).
Proof.
  revert s fn. induction fns as [|fn' fns IH] using rev_ind; intros s fn HI Hh Hres; [done|].
  rewrite hook_renders_snoc.
  change (hook_render polyfill fn') with (@useEffectEvent Env 0 fn').
  destruct (IH s fn HI Hh Hres) as (HI' & Hh' & _).
  pose proof (render_again _ 0 fn' _ HI' Hh') as Hsame.
  pose proof (owns_after_render _ 0 fn' HI') as (r & Hown & Hfn).
  rewrite Hsame in Hown. split_and!.
  - by apply Inv_useEffectEvent.
  - rewrite <- Hsame. by apply handle_of_render.
  - rewrite last_snoc. etransitivity; [exact (resolve_owns _ _ _ Hown)|exact Hfn].
Qed.

Lemma polyfill_runs_passed : hook_runs_passed polyfill.
Proof.
  intros fn fns. exists (default fn (last fns)). split.
  - destruct (last fns) as [fn'|] eqn:Hl; cbn; [|by left].
    right. apply last_Some in Hl as [l' ->]. apply elem_of_app. right. by left.
  - intros args w. cbn [hook_call hook_render hook_init polyfill].
    pose proof (@Inv_init Env) as HI.
    pose proof (Inv_useEffectEvent _ 0 fn HI) as HI'.
    pose proof (handle_of_render _ 0 fn HI) as Hh.
    pose proof (owns_after_render _ 0 fn HI) as (r & Hown & Hfn).
    assert (resolve (useEffectEvent 0 fn init).2 (useEffectEvent 0 fn init).1 = Some fn) as Hres
      by (by rewrite (resolve_owns _ _ _ Hown)).
    destruct (polyfill_runs_latest fns _ _ _ HI' Hh Hres) as (_ & _ & Hres').
    by apply call_resolved.
Qed.

Section WithFacts.

Variable clock : nat → string.
Variable hook : EffectEventHook.
Hypothesis hook_ok : hook_runs_passed hook.

Implicit Types (c : WithC hook) (st : WithC hook * Env).

Lemma onLogEvent_ok c : with_ok c →
  ∃ props name, ∀ message env,
    onLogEvent hook (wi_hooks c) (wi_onLogEvent c) message env
    = Some (emit (OnLog (onLog props) (with_logged message name)) env).
Proof.
  intros (props0 & fns & Hs & Hh & Hall).
  destruct (hook_ok (with_callback props0 "John") fns) as (fn' & Hin & Hcall).
  assert (∃ props name, fn' = with_callback props name) as (props & name & ->).
  { apply elem_of_cons in Hin as [-> | Hin]; [by eexists _, _|].
    by apply (proj1 (Forall_forall _ _) Hall). }
  exists props, name. intros message env. unfold onLogEvent.
  by rewrite Hs, Hh, Hcall.
Qed.

Lemma with_render_ok props name c : with_ok c →
  with_ok (with_render props name c)
  ∧ wi_effectRecreationCount (with_render props name c) = wi_effectRecreationCount c
  ∧ wi_onLogEvent (with_render props name c) = wi_onLogEvent c
  ∧ wi_timer (with_render props name c) = wi_timer c.
Proof.
  intros (props0 & fns & Hs & Hh & Hall). unfold with_render.
  destruct (hook_render hook (with_callback props name) (wi_hooks c)) as [h hooks] eqn:Hr.
  cbn. split; [|done].
  exists props0, (fns ++ [with_callback props name]). cbn. split_and!; try done.
  - by rewrite hook_renders_snoc, <- Hs, Hr.
  - apply Forall_app. split; [done|]. constructor; [|done]. by eexists _, _.
Qed.

Lemma with_mount_spec props env :
  ∃ c env',
    with_mount clock hook props env = Some (c, env')
    ∧ with_ok c
    ∧ wi_effectRecreationCount c = 1 ∧ wi_timer c = next_timer env
    ∧ timers env' = {[next_timer env]} ∪ timers env
    ∧ trace env'
      = trace (notify props 1 (notify props 0 env))
        ++ [OnLog (onLog props)
              (with_logged (with_created 1 (clock (clock_reads env))) "John");
            SetInterval (next_timer env)].
Proof.
  unfold with_mount, onLogEvent.
  destruct (hook_ok (with_callback props "John") []) as (fn' & Hin & Hcall).
  apply list_elem_of_singleton in Hin as ->. cbn [hook_renders foldl] in Hcall.
  destruct (hook_render hook (with_callback props "John") (hook_init hook)) as [h hooks] eqn:Hr.
  cbn [fst snd] in Hcall. unfold read_clock. cbn beta iota zeta. rewrite Hcall.
  destruct (notify_frame props 0 env) as (Ht0 & Hn0 & Hr0).
  destruct (notify_frame props 1 (notify props 0 env)) as (Ht1 & Hn1 & Hr1).
  cbn. eexists _, _. split; [done|]. cbn.
  rewrite Ht1, Hn1, Ht0, Hn0, Hr1, Hr0. split_and!; try done.
  - exists props, []. rewrite Hr. by split_and!.
  - by rewrite <- app_assoc.
Qed.

Lemma with_step_spec e st : with_ok st.1 →
  ∃ st' logs,
    with_step e st = Some st'
    ∧ with_ok st'.1
    ∧ wi_effectRecreationCount st'.1 = wi_effectRecreationCount st.1
    ∧ wi_onLogEvent st'.1 = wi_onLogEvent st.1
    ∧ wi_timer st'.1 = wi_timer st.1
    ∧ timers st'.2 = timers st.2
    ∧ trace st'.2 = trace st.2 ++ logs
    ∧ Forall is_log logs.
Proof.
  destruct st as [c env]. cbn [fst snd]. intros Hok.
  destruct e as [props| |]; cbn [with_step fst snd].
  - exists (with_update props c, env), []. cbn [fst snd]. rewrite app_nil_r.
    unfold with_update. case_decide as Hsame.
    + by split_and!.
    + destruct (with_render_ok props (wi_name c) c Hok) as (? & ? & ? & ?).
      by split_and!.
  - unfold with_toggle. eexists (_, _), [_]. cbn [fst snd].
    destruct (with_render_ok (wi_props c) (other_name (wi_name c)) c Hok) as (? & ? & ? & ?).
    split_and!; try done. constructor; [|done]. by eexists _, _.
  - unfold with_tick. case_decide.
    + destruct (onLogEvent_ok c Hok) as (props & name & ->).
      cbn. eexists (_, _), [_]. cbn [fst snd].
      split_and!; try done. constructor; [|done]. by eexists _, _.
    + cbn. exists (c, env), []. cbn [fst snd]. rewrite app_nil_r. by split_and!.
Qed.

Lemma with_run_spec evs st : with_ok st.1 →
  ∃ st' logs,
    with_run evs st = Some st'
    ∧ with_ok st'.1
    ∧ wi_effectRecreationCount st'.1 = wi_effectRecreationCount st.1
    ∧ wi_onLogEvent st'.1 = wi_onLogEvent st.1
    ∧ wi_timer st'.1 = wi_timer st.1
    ∧ timers st'.2 = timers st.2
    ∧ trace st'.2 = trace st.2 ++ logs
    ∧ Forall is_log logs.
Proof.
  revert st. induction evs as [|e evs IH]; intros st Hok.
  - exists st, []. rewrite app_nil_r. by split_and!.
  - destruct (with_step_spec e st Hok)
      as (st1 & logs1 & Hstep & Hok1 & Hc1 & Hh1 & Ht1 & Hts1 & Htr1 & Hl1).
    destruct (IH st1 Hok1)
      as (st' & logs & Hrun & Hok' & Hc & Hh & Ht & Hts & Htr & Hl).
    exists st', (logs1 ++ logs). cbn [with_run]. rewrite Hstep. cbn.
    rewrite Hrun, Hc, Hh, Ht, Hts, Htr, Hc1, Hh1, Ht1, Hts1, Htr1.
    split_and!; try done.
    + by rewrite app_assoc.
    + by apply Forall_app.
Qed.

(** X16. [WithUseEffectEvent], with any hook in the place of React's
    [useEffectEvent] whose function runs a callback that a render passed to
    it: mounting and any events afterwards succeed (the function the timer
    holds is always callable); the recreation counter stays 1, the timer and
    the function it holds are those of the mount, the running intervals do
    not change after the mount, and everything the component does after the
    mount is a call of an [onLog]: the timer effect never runs again. *)
Theorem with_never_recreates props env evs :
  ∃ c0 env0 c env' logs,
    with_mount clock hook props env = Some (c0, env0)
    ∧ with_run evs (c0, env0) = Some (c, env')
    ∧ wi_effectRecreationCount c = 1
    ∧ wi_timer c = next_timer env
    ∧ wi_onLogEvent c = wi_onLogEvent c0
    ∧ timers env' = {[next_timer env]} ∪ timers env
    ∧ trace env0
      = trace (notify props 1 (notify props 0 env))
        ++ [OnLog (onLog props)
              (with_logged (with_created 1 (clock (clock_reads env))) "John");
            SetInterval (next_timer env)]
    ∧ trace env' = trace env0 ++ logs
    ∧ Forall (λ e, ∃ fn message, e = OnLog fn message) logs.
Proof.
  destruct (with_mount_spec props env) as (c0 & env0 & Hm & Hok & Hc & Ht & Hts & Htr).
  destruct (with_run_spec evs (c0, env0) Hok)
    as ([c env'] & logs & Hrun & _ & Hc' & Hh' & Ht' & Hts' & Htr' & Hl).
  cbn [fst snd] in *. exists c0, env0, c, env', logs.
  rewrite Hc', Ht', Hts'. by split_and!.
Qed.


End WithFacts.

(** ** Examples for the properties of the handlers, the log lines and the
       components *)

(** X2 at the session in which Ada gets a point: the score is 1. *)
Lemma session_never_throws_witness :
  mount two_members no_parse empty_browser = Some fresh_quiz
  ∧ is_Some (quizQuestions !! currentQuestion (session two_members show_team ada_point fresh_quiz).1)
  ∧ ∃ score,
      calculateScore (selectedAnswers (session two_members show_team ada_point fresh_quiz).1)
      = Some score
      ∧ (0 ≤ score ≤ Z.of_nat (length quizQuestions))%Z.
Proof.
  assert (mount two_members no_parse empty_browser = Some fresh_quiz) as Hm by reflexivity.
  split; [exact Hm|].
  exact (session_never_throws two_members show_team no_parse empty_browser
           fresh_quiz.1 fresh_quiz.2 ada_point Hm).
Defined.

(** X3 at ten calls from the first question: the quiz stops at question 7
    and shows the results. *)
Lemma nextQuestion_steps_witness :
  currentQuestion fresh_quiz.1 < length quizQuestions
  ∧ currentQuestion (Nat.iter 10 nextQuestion fresh_quiz.1) = 7
  ∧ showResults (Nat.iter 10 nextQuestion fresh_quiz.1) = true.
Proof.
  assert (currentQuestion fresh_quiz.1 < length quizQuestions) as Hlt by (cbn; lia).
  split; [exact Hlt|].
  destruct (nextQuestion_steps 10 fresh_quiz.1 Hlt) as (Hc & Hs & _).
  split; [exact Hc|exact Hs].
Defined.

(** X6 at the session in which Ada gets a point: the next mount finds her
    point. *)
Lemma reload_restores_witness :
  mount two_members read_team empty_browser = Some fresh_quiz
  ∧ ∃ q' b',
      mount two_members read_team (session two_members show_team ada_point fresh_quiz).2
      = Some (q', b')
      ∧ teamData q' = teamData (session two_members show_team ada_point fresh_quiz).1.
Proof.
  assert (mount two_members read_team empty_browser = Some fresh_quiz) as Hm by reflexivity.
  split; [exact Hm|].
  apply (reload_restores two_members show_team read_team empty_browser
           fresh_quiz.1 fresh_quiz.2 ada_point Hm).
  - by vm_compute.
  - by vm_compute.
Defined.

(** X7 at the session of the team of two that ends with a reset. *)
Lemma scores_consistent_witness :
  mount two_members no_parse empty_browser = Some fresh_quiz
  ∧ team_consistent (teamData (session two_members show_team ada_session fresh_quiz).1).
Proof.
  assert (mount two_members no_parse empty_browser = Some fresh_quiz) as Hm by reflexivity.
  split; [exact Hm|].
  assert (localStorage empty_browser !! storageKey = None
          ∨ localStorage empty_browser !! storageKey = Some ""%string) as Hs
    by (left; reflexivity).
  destruct (scores_consistent two_members show_team no_parse empty_browser
              fresh_quiz.1 fresh_quiz.2 ada_session Hm Hs) as [H _].
  exact H.
Defined.

(** X8 at Ada's clicks: one answer, the second question is current. *)
Lemma every_question_answered_witness :
  mount two_members no_parse empty_browser = Some fresh_quiz
  ∧ Forall (λ slot, ∃ n, slot = Some (VNum n))
      (selectedAnswers (visit two_members show_team ada_clicks fresh_quiz).1)
  ∧ is_Some (quizQuestions
               !! currentQuestion (visit two_members show_team ada_clicks fresh_quiz).1).
Proof.
  assert (mount two_members no_parse empty_browser = Some fresh_quiz) as Hm by reflexivity.
  split; [exact Hm|].
  destruct (every_question_answered two_members show_team no_parse empty_browser
              fresh_quiz.1 fresh_quiz.2 ada_clicks Hm) as (Hall & _ & _ & Hcur).
  split; [exact Hall|exact Hcur].
Defined.

(** X9 at Ada's clicks: one award, and the score is 1. *)
Lemma awards_within_score_witness :
  mount two_members no_parse empty_browser = Some fresh_quiz
  ∧ ∃ score,
      calculateScore (selectedAnswers (visit two_members show_team ada_clicks fresh_quiz).1)
      = Some score
      ∧ (Z.of_nat (size (awardedForQuestion
                           (visit two_members show_team ada_clicks fresh_quiz).1)) ≤ score)%Z.
Proof.
  assert (mount two_members no_parse empty_browser = Some fresh_quiz) as Hm by reflexivity.
  split; [exact Hm|].
  destruct (awards_within_score two_members show_team no_parse empty_browser
              fresh_quiz.1 fresh_quiz.2 ada_clicks Hm) as [_ H].
  exact H.
Defined.

(** X12 at a line of the demo: time stamp and message come back. *)
Lemma log_line_round_trip_witness :
  logTime (logWithTime "10:00:00" "Timer tick #1") = Some "10:00:00"%string
  ∧ logMessage (logWithTime "10:00:00" "Timer tick #1") = "Timer tick #1"%string.
Proof.
  assert ("10:00:00"%string ≠ ""%string) as Hne by discriminate.
  assert ("]"%char ∉ String.list_ascii_of_string "10:00:00") as Hno
    by (apply (bool_decide_unpack _); vm_compute; exact I).
  destruct (log_line_round_trip "10:00:00" "Timer tick #1" Hne Hno) as (Ht & _ & _ & Hm).
  split; [exact Ht|]. apply Hm. reflexivity.
Defined.

(** X14 at two clicks and a tick: one interval runs, none after unmount. *)
Lemma without_one_timer_witness :
  timers (without_run wall_clock click_click_tick
            (without_mount wall_clock demo_props quiet_env)).2
  = timers quiet_env
    ∪ {[tc_timer (wo_effect (without_run wall_clock click_click_tick
                               (without_mount wall_clock demo_props quiet_env)).1)]}
  ∧ timers (without_unmount wall_clock
              (without_run wall_clock click_click_tick
                 (without_mount wall_clock demo_props quiet_env)).1
              (without_run wall_clock click_click_tick
                 (without_mount wall_clock demo_props quiet_env)).2)
    = timers quiet_env.
Proof.
  assert (∀ t, t ∈ timers quiet_env → t < next_timer quiet_env) as Hfresh.
  { intros t Hin. cbn in Hin. by apply elem_of_empty in Hin. }
  destruct (without_one_timer wall_clock demo_props quiet_env click_click_tick Hfresh)
    as (H1 & _ & H2).
  split; [exact H1|exact H2].
Defined.

(** X15 at two clicks and a tick: the tick after them still says John. *)
Lemma without_name_stale_witness :
  onLog_changes (onLog demo_props) click_click_tick = 0
  ∧ tc_name (wo_effect (without_run wall_clock click_click_tick
                          (without_mount wall_clock demo_props quiet_env)).1)
    = "John"%string
  ∧ wo_effectRecreationCount
      (without_run wall_clock click_click_tick
         (without_mount wall_clock demo_props quiet_env)).1 = 1.
Proof.
  assert (onLog_changes (onLog demo_props) click_click_tick = 0) as Hno by reflexivity.
  split; [exact Hno|].
  destruct (without_name_stale wall_clock demo_props quiet_env click_click_tick Hno)
    as (Hn & _ & Hc & _).
  split; [exact Hn|exact Hc].
Defined.

(** X16 with the hook of Part I, at two clicks and a tick: the counter is
    still 1. *)
Lemma with_never_recreates_witness :
  hook_runs_passed polyfill
  ∧ ∃ c0 env0 c env',
      with_mount wall_clock polyfill demo_props quiet_env = Some (c0, env0)
      ∧ with_run click_click_tick (c0, env0) = Some (c, env')
      ∧ wi_effectRecreationCount c = 1.
Proof.
  split; [exact polyfill_runs_passed|].
  destruct (with_never_recreates wall_clock polyfill polyfill_runs_passed
              demo_props quiet_env click_click_tick)
    as (c0 & env0 & c & env' & _ & Hm & Hrun & Hc & _).
  exists c0, env0, c, env'. split; [exact Hm|]. split; [exact Hrun|exact Hc].
Defined.

